(** * jsh alias table and alias substitution (src/alias.c)

    A shallow embedding of [alias.c]: the linked list of aliases with its
    counters and its change flag, the operations [alias], [unalias],
    [alias_exists], [get_all_alias_keys], and the substitution engine
    [resolvealiases] with its helper [is_valid_alias].

    Conventions of the model.
    - A C string passed as an argument ([k], [v], [s]) is the list of its
      characters before the terminating NUL.
    - The key block of an entry is kept as the raw bytes [strncpy] wrote into
      it, terminator included when one was written; every reader of the key
      as a string goes through [c_str] or [strcmp_eq], and a read that would
      run past the block is [Undefined].
    - The output buffer of [resolvealiases] is modelled twice. In
      [resolve_alias], [resolvealiases] and [alias] it is a list that grows
      as needed: they give the text the loops compute, and the size the code
      asks [malloc] for is [maxsize], kept apart so that it can be compared
      with what the substitution writes. In [resolve_alias_in_block],
      [resolvealiases_in_block] and [alias_in_block] the same loops write
      into the block of [maxsize] bytes that the code allocates, terminator
      included: a write past the block is [Undefined]. What is stated of a
      stored value, of [total_alias_val_length] or of the return of the
      engine is stated of the second.
    - [int] counters are [Z] with the 32-bit wrap-around of [wrap_int].
    - No result of [malloc] is checked in the file. Each [malloc] whose block
      is written to at once takes a flag that tells whether it gave a block;
      on NULL the write is [Undefined].
    - The loop of [resolvealiases] takes fuel; [Timeout] means the fuel ran
      out.
    - [is_valid_cmd], [printerr], [printdebug] and [strclone] are not in
      this file. [is_valid_cmd] is a parameter of the engine, a function of
      the key, the context and the offset (section 4.3 of the specification
      has it free of side effects); the message given to [printerr] is
      recorded in the [stderr] field; [strclone] copies the string of its
      block; [printdebug] is left out of the first model of the engine;
      the second returns, as the log of a pass, the offset of the match of
      each round and the verdict, which is what tells the VALID message of
      a round from the INVALID one. *)

From Stdlib Require Import ZArith List Bool Lia.
From Stdlib Require Import Strings.String Strings.Byte.
Import ListNotations.

Set Implicit Arguments.

(** ** Results of a run *)

Inductive outcome (A : Type) : Type :=
| Done (a : A)
| Undefined
| Timeout.

Arguments Done {A} a.
Arguments Undefined {A}.
Arguments Timeout {A}.

Definition bind {A B : Type} (c : outcome A) (f : A -> outcome B) : outcome B :=
  match c with
  | Done a => f a
  | Undefined => Undefined
  | Timeout => Timeout
  end.

Notation "x <- c ;; k" := (bind c (fun x => k))
  (at level 61, c at next level, right associativity).

(** ** Characters and C strings *)

Definition cstr (s : string) : list byte := list_byte_of_string s.

Definition NUL : byte := x00.
Definition backslash : byte := x5c.
Definition tilde : byte := x7e.

Definition is_nul (c : byte) : bool := Byte.eqb c NUL.

Fixpoint bytes_eqb (a b : list byte) : bool :=
  match a, b with
  | [], [] => true
  | x :: a', y :: b' => Byte.eqb x y && bytes_eqb a' b'
  | _, _ => false
  end.

(** The characters of a block before its first NUL. *)
Fixpoint upto_nul (block : list byte) : list byte :=
  match block with
  | [] => []
  | c :: block' => if is_nul c then [] else c :: upto_nul block'
  end.

(** The string held by a block: defined when the block holds a terminator. *)
Definition c_str (block : list byte) : option (list byte) :=
  if existsb is_nul block then Some (upto_nul block) else None.

Definition strnlen (s : list byte) (n : nat) : nat := Nat.min (List.length s) n.

(** [strncpy(dst, src, n)]: exactly [n] bytes are written, the characters of
    [src] and then NUL padding; no terminator when [src] has [n] characters or
    more. *)
Definition strncpy (src : list byte) (n : nat) : list byte :=
  firstn n (src ++ repeat NUL n).

(** [strcmp(block, k) == 0], reading [block] byte by byte; [None] when the
    comparison runs past the end of the block. *)
Fixpoint strcmp_eq (block k : list byte) : option bool :=
  match block with
  | [] => None
  | x :: block' =>
      match k with
      | [] => Some (is_nul x)
      | y :: k' =>
          if Byte.eqb x y
          then (if is_nul x then Some true else strcmp_eq block' k')
          else Some false
      end
  end.

(** [strncmp(block, k, n) == 0]: the two strings agree on their first [n]
    characters. *)
Definition strncmp_eq (block k : list byte) (n : nat) : bool :=
  bytes_eqb (firstn n (upto_nul block)) (firstn n k).

Fixpoint is_prefix (needle hay : list byte) : bool :=
  match needle, hay with
  | [], _ => true
  | _ :: _, [] => false
  | x :: needle', y :: hay' => Byte.eqb x y && is_prefix needle' hay'
  end.

(** [strstr(hay, needle)]: offset of the first occurrence, [None] for NULL. *)
Fixpoint strstr (hay needle : list byte) : option nat :=
  if is_prefix needle hay then Some 0
  else match hay with
       | [] => None
       | _ :: hay' => option_map S (strstr hay' needle)
       end.

(** ** Machine integers *)

Definition INT_MAX : Z := 2147483647.

Definition wrap_int (z : Z) : Z := ((z + 2 ^ 31) mod 2 ^ 32 - 2 ^ 31)%Z.

Definition EXIT_SUCCESS : Z := 0.
Definition EXIT_FAILURE : Z := 1.

(** ** The alias table *)

Definition MAX_ALIAS_VAL_LENGTH : nat := 200.
Definition MAX_ALIAS_KEY_LENGTH : nat := 50.

(** [struct alias]; the [next] pointer is the tail of the list it sits in. *)
Record struct_alias : Type := mk_alias {
  key : list byte;
  value : list byte
}.

(** The globals of the file. [head] is the list from [head] to [tail]. *)
Record state : Type := mk_state {
  head : list struct_alias;
  total_alias_val_length : Z;
  nb_aliases : Z;
  alias_key_changed : bool;
  stderr : list (list byte)
}.

Definition initial : state :=
  {| head := []; total_alias_val_length := 0; nb_aliases := 0;
     alias_key_changed := false; stderr := [] |}.

(** A block handed out by [malloc] that is written to at once: a NULL block
    makes that write undefined. *)
Definition alloc (ok : bool) : outcome unit :=
  if ok then Done tt else Undefined.

(** *** alias_exists *)

Fixpoint alias_exists_from (curAlias : list struct_alias) (k : list byte)
  : outcome bool :=
  match curAlias with
  | [] => Done false
  | a :: next =>
      match strcmp_eq (key a) k with
      | None => Undefined
      | Some true => Done true
      | Some false => alias_exists_from next k
      end
  end.

Definition alias_exists (st : state) (k : list byte) : outcome bool :=
  match head st with
  | [] => Done false
  | _ => alias_exists_from (head st) k
  end.

(** *** unalias *)

(** The walk of [unalias] with [cur] and [prev]: the first entry whose key
    compares equal on [MAX_ALIAS_KEY_LENGTH] characters, and the list without
    it. *)
Fixpoint unlink (cur : list struct_alias) (k : list byte)
  : option (struct_alias * list struct_alias) :=
  match cur with
  | [] => None
  | a :: next =>
      if strncmp_eq (key a) k MAX_ALIAS_KEY_LENGTH then Some (a, next)
      else match unlink next k with
           | Some (found, rest) => Some (found, a :: rest)
           | None => None
           end
  end.

Definition no_such_alias (k : list byte) : list byte :=
  cstr "unalias: no such alias key: " ++ k.

Definition unalias (st : state) (k : list byte) : state * Z :=
  match unlink (head st) k with
  | Some (cur, rest) =>
      ({| head := rest;
          total_alias_val_length :=
            wrap_int (total_alias_val_length st
                      - Z.of_nat (strnlen (value cur) MAX_ALIAS_VAL_LENGTH));
          nb_aliases := wrap_int (nb_aliases st - 1);
          alias_key_changed := true;
          stderr := stderr st |}, EXIT_SUCCESS)
  | None =>
      ({| head := head st;
          total_alias_val_length := total_alias_val_length st;
          nb_aliases := nb_aliases st;
          alias_key_changed := alias_key_changed st;
          stderr := stderr st ++ [no_such_alias k] |}, EXIT_FAILURE)
  end.

(** *** get_all_alias_keys *)

Fixpoint clone_keys (cur : list struct_alias) : outcome (list (list byte)) :=
  match cur with
  | [] => Done []
  | a :: next =>
      match c_str (key a) with
      | None => Undefined
      | Some k => ks <- clone_keys next ;; Done (k :: ks)
      end
  end.

Definition clear_changed (st : state) : state :=
  {| head := head st;
     total_alias_val_length := total_alias_val_length st;
     nb_aliases := nb_aliases st;
     alias_key_changed := false;
     stderr := stderr st |}.

(** The result is [None] for a NULL return, and otherwise the copied keys
    with the value stored through [nb_keys]. [ret_ok] tells whether [malloc]
    gave a block for the array. *)
Definition get_all_alias_keys (ret_ok : bool) (st : state)
  (only_on_change : bool) : outcome (state * option (list (list byte) * Z)) :=
  if only_on_change && negb (alias_key_changed st) then Done (st, None)
  else if ret_ok then
    ks <- clone_keys (head st) ;;
    Done (clear_changed st, Some (ks, (nb_aliases st mod 2 ^ 32)%Z))
  else match head st with
       | [] => Done (clear_changed st, None)
       | _ :: _ => Undefined
       end.

(** ** The substitution engine *)

Definition char_at (context : list byte) (i : Z) : byte :=
  nth (Z.to_nat i) context NUL.

(** [memmove(context+i-1, context+i, strlen(context+i)+1)] *)
Definition remove_at (context : list byte) (n : nat) : list byte :=
  firstn n context ++ skipn (S n) context.

(** The splice of [resolvealiases]: [memmove] of the rest behind the value,
    then [memcpy] of the value over the match at [p]. *)
Definition splice (ret : list byte) (p klen : nat) (v : list byte)
  : list byte :=
  firstn p ret ++ v ++ skipn (p + klen) ret.

(** The size asked of [malloc] for the output buffer. *)
Definition maxsize (st : state) (s : list byte) : Z :=
  wrap_int (Z.of_nat (List.length s) + total_alias_val_length st).

Section Engine.

(** The grammar check of the shell, [is_valid_cmd(key, context, i)]. *)
Variable is_valid_cmd : list byte -> list byte -> Z -> bool.

(** Returns the context as it leaves it, and the verdict. *)
Definition is_valid_alias (k context : list byte) (i : Z)
  : list byte * bool :=
  if (0 <? i)%Z && Byte.eqb (char_at context (i - 1)) backslash
  then (remove_at context (Z.to_nat (i - 1)), false)
  else if Byte.eqb (hd NUL k) tilde then (context, true)
  else (context, is_valid_cmd k context i).

(** The inner [for] loop for one alias: [ret] is the buffer, [str] the
    offset of the part not yet checked. *)
Fixpoint resolve_alias (fuel : nat) (k v ret : list byte) (str : nat)
  : outcome (list byte) :=
  match fuel with
  | O => Timeout
  | S fuel' =>
      match strstr (skipn str ret) k with
      | None => Done ret
      | Some j =>
          let p := str + j in
          let (ret', valid) :=
            is_valid_alias k ret (wrap_int (Z.of_nat p)) in
          if valid
          then resolve_alias fuel' k v (splice ret' p (List.length k) v)
                             (p + List.length v)
          else resolve_alias fuel' k v ret' (p + List.length k)
      end
  end.

(** The same pass as section 4.2 of the specification words it, for
    comparison: after an escaped match the scan resumes right behind the key
    text, which the deletion has moved to end at [p - 1 + length k]. *)
Fixpoint resolve_alias_as_specified (fuel : nat) (k v ret : list byte)
  (str : nat) : outcome (list byte) :=
  match fuel with
  | O => Timeout
  | S fuel' =>
      match strstr (skipn str ret) k with
      | None => Done ret
      | Some j =>
          let p := str + j in
          if (0 <? p) && Byte.eqb (nth (p - 1) ret NUL) backslash
          then resolve_alias_as_specified fuel' k v (remove_at ret (p - 1))
                 (p - 1 + List.length k)
          else if Byte.eqb (hd NUL k) tilde
                  || is_valid_cmd k ret (Z.of_nat p)
          then resolve_alias_as_specified fuel' k v
                 (splice ret p (List.length k) v) (p + List.length v)
          else resolve_alias_as_specified fuel' k v ret (p + List.length k)
      end
  end.

(** The outer [for] loop over the list. *)
Fixpoint resolve_from (fuel : nat) (cur : list struct_alias)
  (ret : list byte) : outcome (list byte) :=
  match cur with
  | [] => Done ret
  | a :: next =>
      match c_str (key a) with
      | None => Undefined
      | Some k =>
          ret' <- resolve_alias fuel k (value a) ret 0 ;;
          resolve_from fuel next ret'
      end
  end.

Definition resolvealiases (ret_ok : bool) (fuel : nat) (st : state)
  (s : list byte) : outcome (list byte) :=
  _ <- alloc ret_ok ;;
  resolve_from fuel (head st) s.

(** *** alias *)

Definition alias (ret_ok new_ok key_ok : bool) (fuel : nat) (st : state)
  (k v : list byte) : outcome (state * Z) :=
  val <- resolvealiases ret_ok fuel st v ;;
  let vallength := strnlen val MAX_ALIAS_VAL_LENGTH in
  let keylength := strnlen k MAX_ALIAS_KEY_LENGTH in
  _ <- alloc new_ok ;;
  _ <- alloc key_ok ;;
  let new := {| key := strncpy k (keylength + 1); value := val |} in
  found <- alias_exists st k ;;
  let st1 := if found then fst (unalias st k) else st in
  Done ({| head := head st1 ++ [new];
           total_alias_val_length :=
             wrap_int (total_alias_val_length st1 + Z.of_nat vallength);
           nb_aliases := wrap_int (nb_aliases st1 + 1);
           alias_key_changed := true;
           stderr := stderr st1 |}, EXIT_SUCCESS).

(** *** Sequences of table operations *)

Inductive op : Type :=
| op_alias (ret_ok new_ok key_ok : bool) (k v : list byte)
| op_unalias (k : list byte).

Definition step (fuel : nat) (st : state) (o : op) : outcome state :=
  match o with
  | op_alias ret_ok new_ok key_ok k v =>
      r <- alias ret_ok new_ok key_ok fuel st k v ;; Done (fst r)
  | op_unalias k => Done (fst (unalias st k))
  end.

Fixpoint run (fuel : nat) (st : state) (ops : list op) : outcome state :=
  match ops with
  | [] => Done st
  | o :: ops' => st' <- step fuel st o ;; run fuel st' ops'
  end.

End Engine.

(** ** The engine inside its block *)

Section EngineInBlock.

Variable is_valid_cmd : list byte -> list byte -> Z -> bool.

(** The inner [for] loop for one alias, writing into a block of [size]
    bytes. The [memmove] of a substitution writes the rest of the buffer and
    its terminator behind the value: the last byte it writes is the one at
    the new length of the string. The result is the buffer and the log of
    the rounds, for each match its offset and the verdict that [printdebug]
    reports. *)
Fixpoint resolve_alias_in_block (size : Z) (fuel : nat) (k v ret : list byte)
  (str : nat) : outcome (list byte * list (nat * bool)) :=
  match fuel with
  | O => Timeout
  | S fuel' =>
      match strstr (skipn str ret) k with
      | None => Done (ret, [])
      | Some j =>
          let p := str + j in
          let (ret', valid) :=
            is_valid_alias is_valid_cmd k ret (wrap_int (Z.of_nat p)) in
          if valid
          then
            let ret2 := splice ret' p (List.length k) v in
            if (Z.of_nat (List.length ret2) + 1 <=? size)%Z
            then
              r <- resolve_alias_in_block size fuel' k v ret2
                     (p + List.length v) ;;
              Done (fst r, (p, true) :: snd r)
            else Undefined
          else
            r <- resolve_alias_in_block size fuel' k v ret'
                   (p + List.length k) ;;
            Done (fst r, (p, false) :: snd r)
      end
  end.

(** The outer [for] loop over the list. *)
Fixpoint resolve_from_in_block (size : Z) (fuel : nat)
  (cur : list struct_alias) (ret : list byte) : outcome (list byte) :=
  match cur with
  | [] => Done ret
  | a :: next =>
      match c_str (key a) with
      | None => Undefined
      | Some k =>
          r <- resolve_alias_in_block size fuel k (value a) ret 0 ;;
          resolve_from_in_block size fuel next (fst r)
      end
  end.

(** [malloc(maxsize)], then [strcpy(ret, s)], which writes the characters of
    [s] and the terminator, then the loops. *)
Definition resolvealiases_in_block (ret_ok : bool) (fuel : nat) (st : state)
  (s : list byte) : outcome (list byte) :=
  _ <- alloc ret_ok ;;
  if (Z.of_nat (List.length s) + 1 <=? maxsize st s)%Z
  then resolve_from_in_block (maxsize st s) fuel (head st) s
  else Undefined.

Definition alias_in_block (ret_ok new_ok key_ok : bool) (fuel : nat)
  (st : state) (k v : list byte) : outcome (state * Z) :=
  val <- resolvealiases_in_block ret_ok fuel st v ;;
  let vallength := strnlen val MAX_ALIAS_VAL_LENGTH in
  let keylength := strnlen k MAX_ALIAS_KEY_LENGTH in
  _ <- alloc new_ok ;;
  _ <- alloc key_ok ;;
  let new := {| key := strncpy k (keylength + 1); value := val |} in
  found <- alias_exists st k ;;
  let st1 := if found then fst (unalias st k) else st in
  Done ({| head := head st1 ++ [new];
           total_alias_val_length :=
             wrap_int (total_alias_val_length st1 + Z.of_nat vallength);
           nb_aliases := wrap_int (nb_aliases st1 + 1);
           alias_key_changed := true;
           stderr := stderr st1 |}, EXIT_SUCCESS).

End EngineInBlock.

(** ** Notions used in the statements *)

(** In the log of a pass, every match lies behind what the rounds before it
    have dealt with: behind the value that a valid round put in, behind the
    key that an invalid round left. *)
Fixpoint scan_moves_on (klen vlen : nat) (log : list (nat * bool)) : Prop :=
  match log with
  | [] => True
  | (p, valid) :: rest =>
      Forall (fun e => p + (if valid : bool then vlen else klen) <= fst e)
        rest
      /\ scan_moves_on klen vlen rest
  end.

(** The replacement of the occurrences of [k] in [s] by [v] in one sweep
    from left to right: an occurrence is looked for in the text as it was
    given, where the occurrence before it ended or behind, and never in a
    value that was put in. [skip] counts the characters of [s] that belong
    to the occurrence just replaced. *)
Fixpoint replace_from (skip : nat) (k v s : list byte) : list byte :=
  match s with
  | [] => []
  | c :: s' =>
      match skip with
      | S n => replace_from n k v s'
      | O =>
          if is_prefix k s
          then v ++ replace_from (List.length k - 1) k v s'
          else c :: replace_from 0 k v s'
      end
  end.

(** The key block holds a terminated, non-empty string. *)
Definition proper_key (a : struct_alias) : bool :=
  match c_str (key a) with
  | Some (_ :: _) => true
  | _ => false
  end.


Definition terminated_key (a : struct_alias) : bool :=
  existsb is_nul (key a).

(** The sum of the value lengths, each measured as [unalias] and [alias]
    measure it, with [strnlen] up to [MAX_ALIAS_VAL_LENGTH]. *)
Fixpoint sum_val_lengths (l : list struct_alias) : Z :=
  match l with
  | [] => 0%Z
  | a :: l' =>
      (Z.of_nat (strnlen (value a) MAX_ALIAS_VAL_LENGTH)
       + sum_val_lengths l')%Z
  end.


(** The entry holds the string [k] as its key. *)
Definition has_key (k : list byte) (a : struct_alias) : bool :=
  bytes_eqb (upto_nul (key a)) k.

(** The key block holds a terminated string of at most
    [MAX_ALIAS_KEY_LENGTH] characters. *)
Definition key_fits (a : struct_alias) : bool :=
  existsb is_nul (key a)
  && (List.length (upto_nul (key a)) <=? MAX_ALIAS_KEY_LENGTH).

(** The keys as [get_all_alias_keys] copies them. *)
Definition keys_of (st : state) : list (list byte) :=
  map (fun a => upto_nul (key a)) (head st).

(** The answer of [get_all_alias_keys] that carries the keys of [st]. *)
Definition keys_answer (st : state)
  : outcome (state * option (list (list byte) * Z)) :=
  Done (clear_changed st, Some (keys_of st, (nb_aliases st mod 2 ^ 32)%Z)).

(** The counter and the sum it stands for, up to the width of [int]. *)
Definition counter_inv (st : state) : Prop :=
  total_alias_val_length st = wrap_int (sum_val_lengths (head st)).

(** ** Tables and inputs used in the examples *)

Definition entry (k v : string) : struct_alias :=
  {| key := cstr k ++ [NUL]; value := cstr v |}.

Definition table (l : list struct_alias) (total : Z) : state :=
  {| head := l; total_alias_val_length := total;
     nb_aliases := Z.of_nat (List.length l);
     alias_key_changed := true; stderr := [] |}.

(** After [alias ls "ls --color"]. *)
Definition st_ls : state := table [entry "ls" "ls --color"] 10.

(** After [alias ~ /home/jo]. *)
Definition st_tilde : state := table [entry "~" "/home/jo"] 8.

(** A key of 60 characters and a value of 250. *)
Definition long_key : list byte := repeat "a"%byte 60.
Definition long_value : list byte := repeat "x"%byte 250.

(** After [alias] of [long_key]: the block holds 51 characters and no
    terminator. *)
Definition st_long_key : state :=
  table [{| key := repeat "a"%byte 51; value := cstr "one" |}] 3.

(** After [alias] of a key of exactly 50 characters. *)
Definition st_key50 : state :=
  table [{| key := repeat "a"%byte 50 ++ [NUL]; value := cstr "one" |}] 3.

(** After [alias ll "ls -l"] on [st_ls] with its flag cleared, no match being
    valid. *)
Definition st_ls_ll : state :=
  table [entry "ls" "ls --color"; entry "ll" "ls -l"] 15.

(** After [alias k] of [long_value]. *)
Definition st_long_value : state :=
  table [{| key := cstr "k" ++ [NUL]; value := long_value |}] 200.

(** A run of five operations and the state it ends in. *)
Definition some_ops : list op :=
  [op_alias true true true (cstr "ls") (cstr "ls --color");
   op_alias true true true (cstr "k") long_value;
   op_alias true true true (cstr "ls") (cstr "ls -l");
   op_unalias (cstr "k");
   op_unalias (cstr "absent")].

Definition st_some_ops : state :=
  {| head := [entry "ls" "ls -l"];
     total_alias_val_length := 5;
     nb_aliases := 1;
     alias_key_changed := true;
     stderr := [cstr "unalias: no such alias key: absent"] |}.

(** Two predicates for the examples. *)
Definition never_valid : list byte -> list byte -> Z -> bool :=
  fun _ _ _ => false.
Definition always_valid : list byte -> list byte -> Z -> bool :=
  fun _ _ _ => true.

Ltac bind_inv H :=
  match type of H with
  | bind ?c _ = Done _ =>
      let E := fresh "E" in
      destruct c eqn:E; simpl in H; try discriminate
  end.

(** ** printaliases *)

(** One line of the listing, [printf] of [alias %s = '%s'] and a newline. *)
Definition alias_line (k v : list byte) : list byte :=
  cstr "alias " ++ k ++ cstr " = '" ++ v ++ cstr "'" ++ [x0a].

(** The [while] loop over the list; the bytes written to stdout. *)
Fixpoint print_from (cur : list struct_alias) : outcome (list byte) :=
  match cur with
  | [] => Done []
  | a :: next =>
      match c_str (key a) with
      | None => Undefined
      | Some k => out <- print_from next ;; Done (alias_line k (value a) ++ out)
      end
  end.

(** The globals are only read: the result is what was written and the
    status. *)
Definition printaliases (st : state) : outcome (list byte * Z) :=
  out <- print_from (head st) ;; Done (out, EXIT_SUCCESS).

(** ** Further notions used in the statements *)

(** The comparison of [unalias] on one entry. *)
Definition matches (k : list byte) (a : struct_alias) : bool :=
  strncmp_eq (key a) k MAX_ALIAS_KEY_LENGTH.

(** The key block holds the empty string. *)
Definition empty_key (a : struct_alias) : bool :=
  match c_str (key a) with
  | Some [] => true
  | _ => false
  end.

(** The key is a terminated string that begins with [~]. *)
Definition tilde_key (a : struct_alias) : bool :=
  match c_str (key a) with
  | Some (c :: _) => Byte.eqb c tilde
  | _ => false
  end.


(** A size that the output of [resolvealiases] cannot exceed: every pass
    can at most put one value in for each character it scans. *)
Fixpoint growth (cur : list struct_alias) (n : nat) : nat :=
  match cur with
  | [] => n
  | a :: next => growth next (n * (1 + List.length (value a)))
  end.

(** An operation whose key, if it stores one, is stored whole. *)
Definition op_fits (o : op) : bool :=
  match o with
  | op_alias _ _ _ k _ =>
      negb (existsb is_nul k) && (List.length k <=? MAX_ALIAS_KEY_LENGTH)
  | op_unalias _ => true
  end.

(** [nb_aliases] and the number of entries it stands for, up to the width
    of [int]. *)
Definition count_inv (st : state) : Prop :=
  nb_aliases st = wrap_int (Z.of_nat (List.length (head st))).

(** The keys fit their blocks and no two entries hold the same key. *)
Definition unique_inv (st : state) : Prop :=
  forallb key_fits (head st) = true
  /\ forall k, List.length (filter (has_key k) (head st)) <= 1.

(** ** Basic facts *)

Lemma byte_eqb_refl (c : byte) : Byte.eqb c c = true.
Proof. now apply Byte.byte_dec_lb. Qed.

Lemma byte_eqb_true (x y : byte) : Byte.eqb x y = true <-> x = y.
Proof.
  split; [apply Byte.byte_dec_bl | apply Byte.byte_dec_lb].
Qed.

Lemma bytes_eqb_true (a b : list byte) : bytes_eqb a b = true <-> a = b.
Proof.
  revert b; induction a as [|x a IH]; intros [|y b]; simpl;
    try (split; [discriminate | discriminate]); [tauto|].
  rewrite andb_true_iff, byte_eqb_true, IH.
  split; [intros [-> ->]; reflexivity | intros H; inversion H; auto].
Qed.

Lemma bytes_eqb_false (a b : list byte) : bytes_eqb a b = false <-> a <> b.
Proof.
  rewrite <- bytes_eqb_true. destruct (bytes_eqb a b); split; congruence.
Qed.

Lemma wrap_int_small (z : Z) :
  (- 2 ^ 31 <= z <= INT_MAX)%Z -> wrap_int z = z.
Proof.
  unfold wrap_int, INT_MAX; intros H.
  rewrite Z.mod_small; lia.
Qed.

Lemma wrap_int_add_l (a b : Z) : wrap_int (wrap_int a + b) = wrap_int (a + b).
Proof.
  unfold wrap_int.
  replace ((a + 2 ^ 31) mod 2 ^ 32 - 2 ^ 31 + b + 2 ^ 31)%Z
    with ((a + 2 ^ 31) mod 2 ^ 32 + b)%Z by lia.
  rewrite Zplus_mod_idemp_l.
  f_equal; f_equal; lia.
Qed.

Lemma wrap_int_sub_l (a b : Z) : wrap_int (wrap_int a - b) = wrap_int (a - b).
Proof.
  replace (wrap_int a - b)%Z with (wrap_int a + - b)%Z by lia.
  replace (a - b)%Z with (a + - b)%Z by lia.
  apply wrap_int_add_l.
Qed.

Lemma is_prefix_length (needle hay : list byte) :
  is_prefix needle hay = true -> List.length needle <= List.length hay.
Proof.
  revert hay; induction needle as [|x n IH]; intros [|y h]; simpl;
    try lia; try discriminate.
  rewrite andb_true_iff; intros [_ H]. apply IH in H. lia.
Qed.

Lemma is_prefix_app (needle hay : list byte) :
  is_prefix needle hay = true ->
  hay = needle ++ skipn (List.length needle) hay.
Proof.
  revert hay; induction needle as [|x n IH]; intros [|y h]; simpl;
    try reflexivity; try discriminate.
  rewrite andb_true_iff, byte_eqb_true; intros [-> H].
  f_equal. now apply IH.
Qed.

Lemma strstr_bound (hay needle : list byte) (j : nat) :
  strstr hay needle = Some j -> j + List.length needle <= List.length hay.
Proof.
  revert j; induction hay as [|y h IH]; intros j; simpl.
  - destruct (is_prefix needle []) eqn:E; [|discriminate].
    intros [= <-]. apply is_prefix_length in E. simpl in *; lia.
  - destruct (is_prefix needle (y :: h)) eqn:E.
    + intros [= <-]. apply is_prefix_length in E. simpl in *; lia.
    + destruct (strstr h needle) as [j'|]; simpl; [|discriminate].
      intros [= <-]. specialize (IH j' eq_refl). lia.
Qed.

Lemma strstr_match (hay needle : list byte) (j : nat) :
  strstr hay needle = Some j -> is_prefix needle (skipn j hay) = true.
Proof.
  revert j; induction hay as [|y h IH]; intros j; simpl.
  - destruct (is_prefix needle []) eqn:E; [|discriminate].
    now intros [= <-].
  - destruct (is_prefix needle (y :: h)) eqn:E.
    + now intros [= <-].
    + destruct (strstr h needle) as [j'|]; simpl; [|discriminate].
      intros [= <-]. simpl. now apply IH.
Qed.

Lemma strstr_empty_needle (hay : list byte) : strstr hay [] = Some 0.
Proof. destruct hay; reflexivity. Qed.

Lemma strstr_nil (k : list byte) : k <> [] -> strstr [] k = None.
Proof. destruct k; [congruence | reflexivity]. Qed.

Lemma is_prefix_refl (k : list byte) : is_prefix k k = true.
Proof.
  induction k as [|c k IH]; simpl; [reflexivity|].
  now rewrite byte_eqb_refl.
Qed.

Lemma strstr_self (k : list byte) : strstr k k = Some 0.
Proof.
  destruct k as [|c k]; [reflexivity|].
  unfold strstr. now rewrite is_prefix_refl.
Qed.

Lemma skipn_length_le (n : nat) (l : list byte) :
  List.length (skipn n l) = List.length l - n.
Proof. apply length_skipn. Qed.

Lemma backslash_not_nul : backslash <> NUL.
Proof. discriminate. Qed.

Lemma nth_backslash_in_range (l : list byte) (n : nat) :
  nth n l NUL = backslash -> n < List.length l.
Proof.
  intros H. destruct (Nat.lt_ge_cases n (List.length l)) as [Hlt|Hge]; auto.
  rewrite nth_overflow in H by lia. discriminate.
Qed.

Lemma remove_at_length (l : list byte) (n : nat) :
  n < List.length l -> List.length (remove_at l n) = List.length l - 1.
Proof.
  intros H. unfold remove_at.
  rewrite length_app, length_firstn, length_skipn. lia.
Qed.

Lemma splice_length (ret v : list byte) (p klen : nat) :
  p + klen <= List.length ret ->
  List.length (splice ret p klen v)
  = List.length ret - klen + List.length v.
Proof.
  intros H. unfold splice.
  rewrite !length_app, length_firstn, length_skipn. lia.
Qed.

(** *** Deleting backslashes *)





(** ** The engine *)

Section EngineFacts.

Variable is_valid_cmd : list byte -> list byte -> Z -> bool.


(** What [is_valid_alias] does to the context: it deletes one backslash
    and answers false, or leaves the context alone. *)
Lemma is_valid_alias_cases (k context : list byte) (i : Z) :
  (exists n, nth n context NUL = backslash
             /\ is_valid_alias is_valid_cmd k context i
                = (remove_at context n, false))
  \/ fst (is_valid_alias is_valid_cmd k context i) = context.
Proof.
  unfold is_valid_alias.
  destruct ((0 <? i)%Z && Byte.eqb (char_at context (i - 1)) backslash)
    eqn:E.
  - left. exists (Z.to_nat (i - 1)).
    apply andb_true_iff in E as [_ E]. apply byte_eqb_true in E.
    split; [exact E | reflexivity].
  - right. destruct (Byte.eqb (hd NUL k) tilde); reflexivity.
Qed.

Lemma is_valid_alias_true (k context context' : list byte) (i : Z) :
  is_valid_alias is_valid_cmd k context i = (context', true) ->
  context' = context.
Proof.
  unfold is_valid_alias.
  destruct ((0 <? i)%Z && Byte.eqb (char_at context (i - 1)) backslash);
    [discriminate|].
  destruct (Byte.eqb (hd NUL k) tilde); congruence.
Qed.

Lemma is_valid_alias_length (k context : list byte) (i : Z) :
  List.length (fst (is_valid_alias is_valid_cmd k context i))
  <= List.length context.
Proof.
  destruct (is_valid_alias_cases k context i) as [(n & Hn & E)|E];
    rewrite E; simpl; [|lia].
  apply nth_backslash_in_range in Hn.
  rewrite remove_at_length by assumption. lia.
Qed.

(** One round of the pass, as the loop body reads. *)
Lemma resolve_alias_round (fuel : nat) (k v ret : list byte) (str : nat) :
  resolve_alias is_valid_cmd (S fuel) k v ret str
  = match strstr (skipn str ret) k with
    | None => Done ret
    | Some j =>
        let p := str + j in
        let (ret', valid) :=
          is_valid_alias is_valid_cmd k ret (wrap_int (Z.of_nat p)) in
        if valid
        then resolve_alias is_valid_cmd fuel k v
               (splice ret' p (List.length k) v)
               (p + List.length v)
        else resolve_alias is_valid_cmd fuel k v ret' (p + List.length k)
    end.
Proof. reflexivity. Qed.

(** More fuel does not change a result. *)
Lemma resolve_alias_S (fuel : nat) (k v : list byte) :
  forall ret str r,
    resolve_alias is_valid_cmd fuel k v ret str = Done r ->
    resolve_alias is_valid_cmd (S fuel) k v ret str = Done r.
Proof.
  induction fuel as [|fuel IH]; intros ret str r; [discriminate|].
  intros H. rewrite resolve_alias_round in H |- *.
  destruct (strstr (skipn str ret) k) as [j|]; [|exact H].
  cbv zeta in *.
  destruct (is_valid_alias is_valid_cmd k ret (wrap_int (Z.of_nat (str + j))))
    as [ret' [|]]; now apply IH.
Qed.

Lemma resolve_alias_mono (fuel fuel' : nat) (k v ret : list byte)
  (str : nat) (r : list byte) :
  fuel <= fuel' ->
  resolve_alias is_valid_cmd fuel k v ret str = Done r ->
  resolve_alias is_valid_cmd fuel' k v ret str = Done r.
Proof.
  induction 1; auto using resolve_alias_S.
Qed.


(** A pass for the empty key never ends: [strstr] finds the empty string
    at [str] in every round. *)
Lemma resolve_alias_empty_key (fuel : nat) (v : list byte) :
  forall ret str, resolve_alias is_valid_cmd fuel [] v ret str = Timeout.
Proof.
  induction fuel as [|fuel IH]; intros ret str; [reflexivity|].
  simpl. rewrite strstr_empty_needle. cbv zeta.
  destruct (is_valid_alias is_valid_cmd [] ret (wrap_int (Z.of_nat (str + 0))))
    as [ret' [|]]; apply IH.
Qed.

Lemma resolve_from_mono (fuel fuel' : nat) (cur : list struct_alias) :
  fuel <= fuel' ->
  forall ret r,
    resolve_from is_valid_cmd fuel cur ret = Done r ->
    resolve_from is_valid_cmd fuel' cur ret = Done r.
Proof.
  intros Hle. induction cur as [|a next IH]; intros ret r; simpl; auto.
  destruct (c_str (key a)) as [k|]; [|discriminate].
  destruct (resolve_alias is_valid_cmd fuel k (value a) ret 0) as [r1| |] eqn:E;
    try discriminate.
  rewrite (resolve_alias_mono _ _ _ _ Hle E). simpl. apply IH.
Qed.

(** *** Passes in which no match is valid *)




(** An escaped match at [p]: the backslash at [p - 1] goes, nothing is
    substituted, and the scan goes on at [p + length k], one character behind
    the end of the key text, which now ends at [p - 1 + length k]. *)
Lemma resolve_alias_escaped (fuel : nat) (k v ret : list byte)
  (str j : nat) :
  strstr (skipn str ret) k = Some j ->
  (Z.of_nat (str + j) <= INT_MAX)%Z ->
  0 < str + j ->
  nth (str + j - 1) ret NUL = backslash ->
  resolve_alias is_valid_cmd (S fuel) k v ret str
  = resolve_alias is_valid_cmd fuel k v (remove_at ret (str + j - 1))
      (str + j + List.length k).
Proof.
  intros Hs Hmax Hpos Hesc. rewrite resolve_alias_round, Hs. cbv zeta.
  rewrite wrap_int_small by (unfold INT_MAX in *; lia).
  unfold is_valid_alias, char_at.
  replace (Z.to_nat (Z.of_nat (str + j) - 1)) with (str + j - 1) by lia.
  rewrite Hesc, byte_eqb_refl.
  replace (0 <? Z.of_nat (str + j))%Z with true
    by (symmetry; apply Z.ltb_lt; lia).
  reflexivity.
Qed.

(** A valid match at [p]: the value takes the place of the key and the scan
    goes on at [p + length v], right behind the value. *)
Lemma resolve_alias_valid (fuel : nat) (k v ret : list byte) (str j : nat) :
  strstr (skipn str ret) k = Some j ->
  snd (is_valid_alias is_valid_cmd k ret (wrap_int (Z.of_nat (str + j))))
  = true ->
  resolve_alias is_valid_cmd (S fuel) k v ret str
  = resolve_alias is_valid_cmd fuel k v (splice ret (str + j) (List.length k) v)
      (str + j + List.length v).
Proof.
  intros Hs Hv. rewrite resolve_alias_round, Hs. cbv zeta.
  destruct (is_valid_alias is_valid_cmd k ret (wrap_int (Z.of_nat (str + j))))
    as [ret' valid] eqn:E.
  simpl in Hv; subst valid. apply is_valid_alias_true in E. now subst ret'.
Qed.

(** A match that is neither escaped nor valid: nothing changes and the scan
    goes on behind the key text. *)
Lemma resolve_alias_invalid (fuel : nat) (k v ret : list byte) (str j : nat) :
  strstr (skipn str ret) k = Some j ->
  is_valid_alias is_valid_cmd k ret (wrap_int (Z.of_nat (str + j)))
  = (ret, false) ->
  resolve_alias is_valid_cmd (S fuel) k v ret str
  = resolve_alias is_valid_cmd fuel k v ret (str + j + List.length k).
Proof.
  intros Hs Hv. rewrite resolve_alias_round, Hs. cbv zeta.
  now rewrite Hv.
Qed.

End EngineFacts.

(** ** The table *)

Lemma strcmp_eq_defined (block k : list byte) :
  existsb is_nul block = true -> exists b, strcmp_eq block k = Some b.
Proof.
  revert k; induction block as [|x block IH]; intros k; simpl;
    [discriminate|].
  destruct k as [|y k]; [eauto|].
  destruct (Byte.eqb x y); [|eauto].
  destruct (is_nul x); simpl; [eauto | apply IH].
Qed.

Lemma proper_key_terminated (a : struct_alias) :
  proper_key a = true -> terminated_key a = true.
Proof.
  unfold proper_key, terminated_key, c_str.
  destruct (existsb is_nul (key a)); [reflexivity | discriminate].
Qed.

Lemma alias_exists_from_defined (cur : list struct_alias) (k : list byte) :
  forallb terminated_key cur = true ->
  exists b, alias_exists_from cur k = Done b.
Proof.
  induction cur as [|a next IH]; simpl; [eauto|].
  rewrite andb_true_iff; intros [Ha Hnext].
  destruct (strcmp_eq_defined (key a) k Ha) as [[|] ->]; eauto.
Qed.

Lemma alias_exists_defined (st : state) (k : list byte) :
  forallb terminated_key (head st) = true ->
  exists b, alias_exists st k = Done b.
Proof.
  unfold alias_exists. intros H.
  destruct (head st) eqn:E; [eauto|].
  now apply alias_exists_from_defined.
Qed.

Lemma forallb_proper_terminated (cur : list struct_alias) :
  forallb proper_key cur = true -> forallb terminated_key cur = true.
Proof.
  rewrite !forallb_forall. auto using proper_key_terminated.
Qed.

Lemma sum_val_lengths_app (l1 l2 : list struct_alias) :
  sum_val_lengths (l1 ++ l2) = (sum_val_lengths l1 + sum_val_lengths l2)%Z.
Proof. induction l1; simpl; lia. Qed.

Lemma sum_val_lengths_nonneg (l : list struct_alias) :
  (0 <= sum_val_lengths l)%Z.
Proof. induction l; simpl; lia. Qed.

Lemma unlink_none (cur : list struct_alias) (k : list byte) :
  (forall a, In a cur ->
             strncmp_eq (key a) k MAX_ALIAS_KEY_LENGTH = false) ->
  unlink cur k = None.
Proof.
  induction cur as [|a next IH]; intros H; simpl; [reflexivity|].
  rewrite (H a) by (left; reflexivity).
  rewrite IH; [reflexivity|]. intros b Hb. apply H. now right.
Qed.

Lemma unlink_sum (cur rest : list struct_alias) (k : list byte)
  (found : struct_alias) :
  unlink cur k = Some (found, rest) ->
  sum_val_lengths cur
  = (Z.of_nat (strnlen (value found) MAX_ALIAS_VAL_LENGTH)
     + sum_val_lengths rest)%Z.
Proof.
  revert rest; induction cur as [|a next IH]; intros rest; simpl;
    [discriminate|].
  destruct (strncmp_eq (key a) k MAX_ALIAS_KEY_LENGTH).
  - intros [= <- <-]. reflexivity.
  - destruct (unlink next k) as [[f r]|]; [|discriminate].
    intros [= <- <-]. simpl. rewrite (IH r eq_refl). lia.
Qed.

Lemma unlink_length (cur rest : list struct_alias) (k : list byte)
  (found : struct_alias) :
  unlink cur k = Some (found, rest) ->
  List.length cur = S (List.length rest).
Proof.
  revert rest; induction cur as [|a next IH]; intros rest; simpl;
    [discriminate|].
  destruct (strncmp_eq (key a) k MAX_ALIAS_KEY_LENGTH).
  - intros [= <- <-]. reflexivity.
  - destruct (unlink next k) as [[f r]|]; [|discriminate].
    intros [= <- <-]. simpl. now rewrite (IH r eq_refl).
Qed.

Lemma counter_inv_initial : counter_inv initial.
Proof. reflexivity. Qed.

Lemma counter_inv_unalias (st : state) (k : list byte) :
  counter_inv st -> counter_inv (fst (unalias st k)).
Proof.
  unfold counter_inv, unalias. intros H.
  destruct (unlink (head st) k) as [[cur rest]|] eqn:E; simpl; [|exact H].
  rewrite H, wrap_int_sub_l. f_equal.
  rewrite (unlink_sum _ _ E). lia.
Qed.

Lemma unalias_success_changed (st st' : state) (k : list byte) :
  unalias st k = (st', EXIT_SUCCESS) -> alias_key_changed st' = true.
Proof.
  unfold unalias.
  destruct (unlink (head st) k) as [[cur rest]|]; intros [= <-]; reflexivity.
Qed.

Section TableFacts.

Variable is_valid_cmd : list byte -> list byte -> Z -> bool.


(** Whatever [alias] returns, it has appended one entry holding the value
    as [resolvealiases] gave it, set the flag and answered EXIT_SUCCESS. *)
Lemma alias_done (ret_ok new_ok key_ok : bool) (fuel : nat) (st st' : state)
  (k v : list byte) (rc : Z) :
  alias is_valid_cmd ret_ok new_ok key_ok fuel st k v = Done (st', rc) ->
  exists val found,
    resolvealiases is_valid_cmd ret_ok fuel st v = Done val
    /\ alias_exists st k = Done found
    /\ new_ok = true /\ key_ok = true
    /\ rc = EXIT_SUCCESS
    /\ alias_key_changed st' = true
    /\ let st1 := if found then fst (unalias st k) else st in
       head st' = head st1 ++
         [{| key := strncpy k (strnlen k MAX_ALIAS_KEY_LENGTH + 1);
             value := val |}]
       /\ total_alias_val_length st'
          = wrap_int (total_alias_val_length st1
                      + Z.of_nat (strnlen val MAX_ALIAS_VAL_LENGTH))
       /\ nb_aliases st' = wrap_int (nb_aliases st1 + 1)
       /\ stderr st' = stderr st1.
Proof.
  unfold alias. intros H.
  bind_inv H. destruct new_ok; simpl in H; [|discriminate].
  destruct key_ok; simpl in H; [|discriminate].
  bind_inv H. injection H as <- <-.
  exists a, a0. simpl. repeat split; reflexivity.
Qed.

Lemma counter_inv_alias (ret_ok new_ok key_ok : bool) (fuel : nat)
  (st st' : state) (k v : list byte) (rc : Z) :
  counter_inv st ->
  alias is_valid_cmd ret_ok new_ok key_ok fuel st k v = Done (st', rc) ->
  counter_inv st'.
Proof.
  intros Hinv H. apply alias_done in H
    as (val & found & _ & _ & _ & _ & _ & _ & Hhead & Htotal & _).
  unfold counter_inv. rewrite Htotal, Hhead, sum_val_lengths_app. simpl.
  assert (H1 : counter_inv (if found then fst (unalias st k) else st))
    by (destruct found; auto using counter_inv_unalias).
  rewrite H1, wrap_int_add_l. f_equal. lia.
Qed.

End TableFacts.

(** *** Keys as [get_all_alias_keys] copies them *)
Lemma clone_keys_terminated (cur : list struct_alias) :
  forallb terminated_key cur = true ->
  clone_keys cur = Done (map (fun a => upto_nul (key a)) cur).
Proof.
  induction cur as [|a next IH]; simpl; [reflexivity|].
  rewrite andb_true_iff; intros [Ha Hnext].
  unfold c_str. unfold terminated_key in Ha. rewrite Ha, (IH Hnext).
  reflexivity.
Qed.

Lemma existsb_is_nul_app (l1 l2 : list byte) :
  existsb is_nul (l1 ++ l2) = existsb is_nul l1 || existsb is_nul l2.
Proof. apply existsb_app. Qed.

(** A key of at most [MAX_ALIAS_KEY_LENGTH] characters is copied with its
    terminator. *)
Lemma strncpy_short_key (k : list byte) :
  List.length k <= MAX_ALIAS_KEY_LENGTH ->
  strncpy k (strnlen k MAX_ALIAS_KEY_LENGTH + 1) = k ++ [NUL].
Proof.
  intros H. unfold strncpy, strnlen.
  rewrite Nat.min_l by assumption.
  rewrite firstn_app, firstn_all2 by lia.
  replace (List.length k + 1 - List.length k) with 1 by lia.
  rewrite Nat.add_1_r. reflexivity.
Qed.

(** A longer key is copied without one: the block is its first
    [MAX_ALIAS_KEY_LENGTH + 1] characters. *)
Lemma strncpy_long_key (k : list byte) :
  MAX_ALIAS_KEY_LENGTH < List.length k ->
  strncpy k (strnlen k MAX_ALIAS_KEY_LENGTH + 1)
  = firstn (MAX_ALIAS_KEY_LENGTH + 1) k.
Proof.
  intros H. unfold strncpy, strnlen.
  rewrite Nat.min_r by lia.
  rewrite firstn_app.
  replace (MAX_ALIAS_KEY_LENGTH + 1 - List.length k) with 0 by lia.
  simpl. apply app_nil_r.
Qed.

Lemma unlink_forallb (P : struct_alias -> bool) (cur rest : list struct_alias)
  (k : list byte) (found : struct_alias) :
  unlink cur k = Some (found, rest) ->
  forallb P cur = true -> forallb P rest = true.
Proof.
  revert rest; induction cur as [|a next IH]; intros rest; simpl;
    [discriminate|].
  rewrite andb_true_iff.
  destruct (strncmp_eq (key a) k MAX_ALIAS_KEY_LENGTH).
  - intros [= <- <-] [_ H]. exact H.
  - destruct (unlink next k) as [[f r]|]; [|discriminate].
    intros [= <- <-] [Ha H]. simpl. rewrite Ha. simpl. now apply (IH r).
Qed.

Lemma unalias_forallb (P : struct_alias -> bool) (st : state) (k : list byte) :
  forallb P (head st) = true -> forallb P (head (fst (unalias st k))) = true.
Proof.
  unfold unalias. intros H.
  destruct (unlink (head st) k) as [[cur rest]|] eqn:E; simpl; auto.
  eapply unlink_forallb; eassumption.
Qed.

Lemma get_all_alias_keys_unchanged (ret_ok : bool) (st : state) :
  alias_key_changed st = false ->
  get_all_alias_keys ret_ok st true = Done (st, None).
Proof.
  unfold get_all_alias_keys. intros ->. reflexivity.
Qed.

Lemma get_all_alias_keys_changed (st : state) (only_on_change : bool) :
  only_on_change && negb (alias_key_changed st) = false ->
  forallb terminated_key (head st) = true ->
  get_all_alias_keys true st only_on_change
  = Done (clear_changed st,
          Some (keys_of st, (nb_aliases st mod 2 ^ 32)%Z)).
Proof.
  unfold get_all_alias_keys. intros -> H.
  rewrite (clone_keys_terminated _ H). reflexivity.
Qed.

Lemma get_all_alias_keys_clears (ret_ok : bool) (st st1 : state)
  (r1 : option (list (list byte) * Z)) :
  get_all_alias_keys ret_ok st true = Done (st1, r1) ->
  alias_key_changed st1 = false.
Proof.
  unfold get_all_alias_keys.
  destruct (alias_key_changed st) eqn:E; simpl.
  - destruct ret_ok.
    + intros H. bind_inv H. now injection H as <- <-.
    + destruct (head st); [|discriminate]. now intros [= <- <-].
  - now intros [= <- <-].
Qed.

(** *** The keys stay terminated *)

Lemma get_all_alias_keys_head (ret_ok only_on_change : bool) (st st1 : state)
  (r1 : option (list (list byte) * Z)) :
  get_all_alias_keys ret_ok st only_on_change = Done (st1, r1) ->
  head st1 = head st.
Proof.
  unfold get_all_alias_keys.
  destruct (only_on_change && negb (alias_key_changed st)).
  - now intros [= <- <-].
  - destruct ret_ok.
    + intros H. bind_inv H. now injection H as <- <-.
    + destruct (head st) eqn:E; [|discriminate].
      intros [= <- <-]. simpl. now rewrite E.
Qed.

Lemma alias_terminated
  (is_valid_cmd : list byte -> list byte -> Z -> bool)
  (ret_ok new_ok key_ok : bool) (fuel : nat) (st st' : state)
  (k v : list byte) (rc : Z) :
  forallb terminated_key (head st) = true ->
  List.length k <= MAX_ALIAS_KEY_LENGTH ->
  alias is_valid_cmd ret_ok new_ok key_ok fuel st k v = Done (st', rc) ->
  forallb terminated_key (head st') = true.
Proof.
  intros Hok Hk H.
  apply alias_done in H
    as (val & found & _ & _ & _ & _ & _ & _ & Hhead & _).
  rewrite Hhead, forallb_app. apply andb_true_iff. split.
  - destruct found; auto using unalias_forallb.
  - simpl. unfold terminated_key. simpl.
    rewrite strncpy_short_key, existsb_is_nul_app by assumption.
    simpl. rewrite orb_true_r. reflexivity.
Qed.

(** [unalias] on a key that no entry matches in the comparison of
    [strncmp] on [MAX_ALIAS_KEY_LENGTH] characters. *)
Lemma unalias_not_found (st : state) (k : list byte) :
  (forall a, In a (head st) ->
             firstn MAX_ALIAS_KEY_LENGTH (upto_nul (key a))
             <> firstn MAX_ALIAS_KEY_LENGTH k) ->
  unalias st k
  = ({| head := head st;
        total_alias_val_length := total_alias_val_length st;
        nb_aliases := nb_aliases st;
        alias_key_changed := alias_key_changed st;
        stderr := stderr st ++ [no_such_alias k] |},
     EXIT_FAILURE).
Proof.
  intros H. unfold unalias. rewrite unlink_none; [reflexivity|].
  intros a Ha. unfold strncmp_eq. apply bytes_eqb_false. now apply H.
Qed.

(** A key shorter than [MAX_ALIAS_KEY_LENGTH] is compared as a whole: it is
    enough that no entry holds it. *)
Lemma unalias_absent_short_key (st : state) (k : list byte) :
  List.length k < MAX_ALIAS_KEY_LENGTH ->
  (forall a, In a (head st) -> upto_nul (key a) <> k) ->
  snd (unalias st k) = EXIT_FAILURE /\ head (fst (unalias st k)) = head st.
Proof.
  intros Hk H. rewrite unalias_not_found; [split; reflexivity|].
  intros a Ha E. apply (H a Ha).
  replace (firstn MAX_ALIAS_KEY_LENGTH k) with k in E
    by (symmetry; apply firstn_all2; lia).
  destruct (Nat.le_gt_cases (List.length (upto_nul (key a)))
              MAX_ALIAS_KEY_LENGTH) as [Hle|Hgt].
  - now rewrite firstn_all2 in E by assumption.
  - apply (f_equal (@List.length byte)) in E.
    rewrite length_firstn in E. lia.
Qed.

(** ** Redefinition of a key that fits its block

    What C6 says of every key holds for the keys [alias] stores whole: keys
    of at most [MAX_ALIAS_KEY_LENGTH] characters. *)

Lemma bytes_eqb_refl (a : list byte) : bytes_eqb a a = true.
Proof. now apply bytes_eqb_true. Qed.

Lemma upto_nul_no_nul (k rest : list byte) :
  existsb is_nul k = false -> upto_nul (k ++ NUL :: rest) = k.
Proof.
  induction k as [|c k IH]; simpl; [reflexivity|].
  rewrite orb_false_iff; intros [-> H]. now rewrite IH.
Qed.

Lemma strcmp_eq_terminated (block k : list byte) :
  existsb is_nul block = true ->
  existsb is_nul k = false ->
  strcmp_eq block k = Some (bytes_eqb (upto_nul block) k).
Proof.
  revert k; induction block as [|x block IH]; intros k; simpl;
    [discriminate|].
  destruct k as [|y k]; simpl.
  - destruct (is_nul x); reflexivity.
  - rewrite orb_false_iff. intros Hb [Hy Hk].
    destruct (is_nul x) eqn:Ex.
    + assert (Byte.eqb x y = false) as ->; [|reflexivity].
      apply byte_eqb_true in Ex. subst x.
      destruct (Byte.eqb NUL y) eqn:E; [|reflexivity].
      apply byte_eqb_true in E. subst y. discriminate Hy.
    + simpl in Hb. simpl. destruct (Byte.eqb x y); simpl; [|reflexivity].
      now apply IH.
Qed.

Lemma strncmp_eq_fits (block k : list byte) :
  List.length (upto_nul block) <= MAX_ALIAS_KEY_LENGTH ->
  List.length k <= MAX_ALIAS_KEY_LENGTH ->
  strncmp_eq block k MAX_ALIAS_KEY_LENGTH = bytes_eqb (upto_nul block) k.
Proof.
  intros Hb Hk. unfold strncmp_eq. now rewrite !firstn_all2.
Qed.

Lemma alias_exists_from_fits (cur : list struct_alias) (k : list byte) :
  forallb key_fits cur = true ->
  existsb is_nul k = false ->
  alias_exists_from cur k = Done (existsb (has_key k) cur).
Proof.
  intros Hcur Hk. induction cur as [|a next IH]; simpl; [reflexivity|].
  simpl in Hcur. apply andb_true_iff in Hcur as [Ha Hnext].
  apply andb_true_iff in Ha as [Ha _].
  rewrite (@strcmp_eq_terminated (key a) k Ha Hk). unfold has_key at 1.
  destruct (bytes_eqb (upto_nul (key a)) k); simpl; auto.
Qed.

Lemma alias_exists_fits (st : state) (k : list byte) :
  forallb key_fits (head st) = true ->
  existsb is_nul k = false ->
  alias_exists st k = Done (existsb (has_key k) (head st)).
Proof.
  intros Hst Hk. unfold alias_exists.
  destruct (head st) eqn:E; [reflexivity|].
  now apply alias_exists_from_fits.
Qed.

Lemma unlink_fits (cur : list struct_alias) (k : list byte) :
  forallb key_fits cur = true ->
  List.length k <= MAX_ALIAS_KEY_LENGTH ->
  match unlink cur k with
  | Some (found, rest) =>
      filter (has_key k) cur = found :: filter (has_key k) rest
  | None => filter (has_key k) cur = []
  end.
Proof.
  intros Hcur Hk. induction cur as [|a next IH]; simpl; [reflexivity|].
  simpl in Hcur. apply andb_true_iff in Hcur as [Ha Hnext].
  apply andb_true_iff in Ha as [_ Ha]. apply Nat.leb_le in Ha.
  rewrite (@strncmp_eq_fits (key a) k Ha Hk).
  change (has_key k a) with (bytes_eqb (upto_nul (key a)) k).
  destruct (bytes_eqb (upto_nul (key a)) k) eqn:E; [reflexivity|].
  specialize (IH Hnext).
  destruct (unlink next k) as [[found rest]|]; simpl.
  - change (has_key k a) with (bytes_eqb (upto_nul (key a)) k).
    now rewrite E.
  - exact IH.
Qed.

Lemma filter_nil_existsb (P : struct_alias -> bool) (l : list struct_alias) :
  filter P l = [] -> existsb P l = false.
Proof.
  induction l as [|a l IH]; simpl; [reflexivity|].
  destruct (P a); [discriminate | exact IH].
Qed.

Lemma existsb_false_filter (P : struct_alias -> bool)
  (l : list struct_alias) :
  existsb P l = false -> filter P l = [].
Proof.
  induction l as [|a l IH]; simpl; [reflexivity|].
  destruct (P a); [discriminate | exact IH].
Qed.

Lemma wrap_int_idem (z : Z) : wrap_int (wrap_int z) = wrap_int z.
Proof.
  replace (wrap_int z) with (wrap_int z + 0)%Z at 1 by lia.
  rewrite wrap_int_add_l. f_equal. lia.
Qed.

(** The table [alias] leaves once it has dealt with an old entry of [k]:
    no entry holds [k] any more, and the keys still fit. *)
Lemma unalias_if_found (st : state) (k : list byte) :
  forallb key_fits (head st) = true ->
  existsb is_nul k = false ->
  List.length k <= MAX_ALIAS_KEY_LENGTH ->
  List.length (filter (has_key k) (head st)) <= 1 ->
  let st1 := if existsb (has_key k) (head st)
             then fst (unalias st k) else st in
  filter (has_key k) (head st1) = []
  /\ forallb key_fits (head st1) = true
  /\ (existsb (has_key k) (head st) = true ->
      S (List.length (head st1)) = List.length (head st)
      /\ nb_aliases st1 = wrap_int (nb_aliases st - 1)).
Proof.
  intros Hst Hnul Hk Huniq. cbv zeta.
  destruct (existsb (has_key k) (head st)) eqn:Ex.
  - pose proof (@unlink_fits (head st) k Hst Hk) as Hu.
    pose proof (@unalias_forallb key_fits st k Hst) as Hf.
    unfold unalias in *.
    destruct (unlink (head st) k) as [[found rest]|] eqn:E; simpl in *.
    + rewrite Hu in Huniq. simpl in Huniq.
      split; [|split; [exact Hf|]].
      * destruct (filter (has_key k) rest); [reflexivity|simpl in *; lia].
      * intros _. split; [|reflexivity].
        symmetry. eapply unlink_length. exact E.
    + apply filter_nil_existsb in Hu. congruence.
  - split; [now apply existsb_false_filter|].
    split; [exact Hst | discriminate].
Qed.

(** The entry [alias] appends for a key that fits. *)
Lemma new_entry_fits (k val : list byte) :
  existsb is_nul k = false ->
  List.length k <= MAX_ALIAS_KEY_LENGTH ->
  let new := {| key := strncpy k (strnlen k MAX_ALIAS_KEY_LENGTH + 1);
                value := val |} in
  key new = k ++ [NUL] /\ has_key k new = true /\ key_fits new = true.
Proof.
  intros Hnul Hk. cbv zeta. unfold has_key, key_fits. simpl.
  rewrite strncpy_short_key by assumption.
  rewrite upto_nul_no_nul by assumption.
  rewrite bytes_eqb_refl, existsb_is_nul_app. simpl.
  rewrite orb_true_r. repeat split.
  apply Nat.leb_le. exact Hk.
Qed.

(** One [alias] on a table whose keys fit and hold [k] at most once: the
    new entry is the only one under [k]. *)
Lemma alias_fits_once
  (is_valid_cmd : list byte -> list byte -> Z -> bool)
  (ret_ok new_ok key_ok : bool) (fuel : nat) (st st' : state)
  (k v : list byte) (rc : Z) :
  forallb key_fits (head st) = true ->
  existsb is_nul k = false ->
  List.length k <= MAX_ALIAS_KEY_LENGTH ->
  List.length (filter (has_key k) (head st)) <= 1 ->
  alias is_valid_cmd ret_ok new_ok key_ok fuel st k v = Done (st', rc) ->
  exists val,
    resolvealiases is_valid_cmd ret_ok fuel st v = Done val
    /\ filter (has_key k) (head st')
       = [{| key := k ++ [NUL]; value := val |}]
    /\ forallb key_fits (head st') = true
    /\ (existsb (has_key k) (head st) = true ->
        List.length (head st') = List.length (head st)
        /\ nb_aliases st' = wrap_int (nb_aliases st))
    /\ nb_aliases st' = wrap_int (nb_aliases st').
Proof.
  intros Hst Hnul Hk Huniq H.
  apply alias_done in H
    as (val & found & Hval & Hfound & _ & _ & _ & _ & Hhead & _ & Hnb & _).
  rewrite (@alias_exists_fits st k Hst Hnul) in Hfound.
  injection Hfound as <-.
  destruct (@unalias_if_found st k Hst Hnul Hk Huniq)
    as (Hnone & Hfits & Hold).
  destruct (@new_entry_fits k val Hnul Hk) as (Hkey & Hhas & Hnew).
  simpl in Hkey.
  exists val. split; [exact Hval|].
  rewrite Hhead, filter_app, Hnone, forallb_app, Hfits. simpl.
  rewrite Hhas, Hnew, Hkey.
  split; [reflexivity|]. split; [reflexivity|]. split.
  - intros Hex. destruct (Hold Hex) as [Hlen Hnb1]. split.
    + rewrite length_app. simpl. lia.
    + rewrite Hnb, Hnb1, wrap_int_add_l. f_equal. lia.
  - rewrite Hnb. symmetry. apply wrap_int_idem.
Qed.

(** [alias k v1] then [alias k v2], for a key [k] of at most
    [MAX_ALIAS_KEY_LENGTH] characters on a table whose keys fit and hold [k]
    at most once: one entry under [k], with the second value as
    [resolvealiases] gave it, and the list as long and [nb_aliases] as large
    as after the first call. *)
Lemma alias_twice_fitting_key
  (is_valid_cmd : list byte -> list byte -> Z -> bool)
  (ret_ok1 new_ok1 key_ok1 ret_ok2 new_ok2 key_ok2 : bool)
  (fuel1 fuel2 : nat) (st st1 st2 : state) (k v1 v2 : list byte)
  (rc1 rc2 : Z) :
  forallb key_fits (head st) = true ->
  existsb is_nul k = false ->
  List.length k <= MAX_ALIAS_KEY_LENGTH ->
  List.length (filter (has_key k) (head st)) <= 1 ->
  alias is_valid_cmd ret_ok1 new_ok1 key_ok1 fuel1 st k v1 = Done (st1, rc1) ->
  alias is_valid_cmd ret_ok2 new_ok2 key_ok2 fuel2 st1 k v2 = Done (st2, rc2) ->
  exists val2,
    resolvealiases is_valid_cmd ret_ok2 fuel2 st1 v2 = Done val2
    /\ filter (has_key k) (head st2)
       = [{| key := k ++ [NUL]; value := val2 |}]
    /\ List.length (head st2) = List.length (head st1)
    /\ nb_aliases st2 = nb_aliases st1.
Proof.
  intros Hst Hnul Hk Huniq H1 H2.
  destruct (@alias_fits_once _ _ _ _ _ _ _ _ _ _ Hst Hnul Hk Huniq H1)
    as (val1 & _ & Hone & Hfits1 & _ & Hnb1).
  assert (Huniq1 : List.length (filter (has_key k) (head st1)) <= 1)
    by (rewrite Hone; simpl; lia).
  assert (Hex1 : existsb (has_key k) (head st1) = true).
  { destruct (existsb (has_key k) (head st1)) eqn:E; [reflexivity|].
    apply existsb_false_filter in E. rewrite Hone in E. discriminate. }
  destruct (@alias_fits_once _ _ _ _ _ _ _ _ _ _ Hfits1 Hnul Hk Huniq1 H2)
    as (val2 & Hval2 & Htwo & _ & Hsame & _).
  destruct (Hsame Hex1) as [Hlen Hnb2].
  exists val2. repeat split; try assumption.
  now rewrite Hnb2, <- Hnb1.
Qed.

Example alias_twice_ls :
  exists st1 st2,
    alias never_valid true true true 1 initial (cstr "ls") (cstr "ls --color")
    = Done (st1, EXIT_SUCCESS)
    /\ alias never_valid true true true 2 st1 (cstr "ls") (cstr "ls -l")
       = Done (st2, EXIT_SUCCESS)
    /\ filter (has_key (cstr "ls")) (head st2) = [entry "ls" "ls -l"]
    /\ nb_aliases st2 = nb_aliases st1.
Proof.
  eexists. eexists.
  split; [reflexivity|]. split; [reflexivity|].
  destruct (@alias_twice_fitting_key never_valid true true true true true true
              1 2 initial st_ls _ (cstr "ls") (cstr "ls --color")
              (cstr "ls -l") EXIT_SUCCESS EXIT_SUCCESS
              eq_refl eq_refl ltac:(vm_compute; lia) ltac:(simpl; lia)
              eq_refl eq_refl)
    as (val2 & Hval2 & Hone & _ & Hnb).
  injection Hval2 as <-. split; [exact Hone | exact Hnb].
Qed.

(** ** A table that holds the empty key *)

(** [resolvealiases] does not return on it, and so neither does [alias]:
    the pass for the empty key never ends. *)
Lemma resolve_from_empty_key
  (is_valid_cmd : list byte -> list byte -> Z -> bool) (fuel : nat)
  (cur : list struct_alias) :
  existsb (fun a => match c_str (key a) with
                    | Some [] => true
                    | _ => false
                    end) cur = true ->
  forall ret r, resolve_from is_valid_cmd fuel cur ret <> Done r.
Proof.
  induction cur as [|a next IH]; simpl; [discriminate|].
  intros H ret r.
  destruct (c_str (key a)) as [[|c k]|]; simpl in H; try discriminate.
  - now rewrite resolve_alias_empty_key.
  - destruct (resolve_alias is_valid_cmd fuel (c :: k) (value a) ret 0);
      simpl; try discriminate.
    now apply IH.
Qed.

Lemma alias_builds_empty_key
  (is_valid_cmd : list byte -> list byte -> Z -> bool) (fuel : nat) :
  alias is_valid_cmd true true true fuel initial (cstr "") (cstr "x")
  = Done (table [entry "" "x"] 1, EXIT_SUCCESS).
Proof. reflexivity. Qed.

Lemma alias_empty_key_in_table
  (is_valid_cmd : list byte -> list byte -> Z -> bool)
  (ret_ok new_ok key_ok : bool) (fuel : nat) (k v : list byte)
  (st' : state) (rc : Z) :
  alias is_valid_cmd ret_ok new_ok key_ok fuel
    (table [entry "" "x"] 1) k v <> Done (st', rc).
Proof.
  intros H. apply alias_done in H as (val & _ & H & _).
  unfold resolvealiases in H. destruct ret_ok; [|discriminate].
  exact (@resolve_from_empty_key is_valid_cmd fuel [entry "" "x"] eq_refl
           v val H).
Qed.

(** ** The engine inside its block *)

Lemma wrap_int_le (z : Z) : (0 <= z)%Z -> (wrap_int z <= z)%Z.
Proof.
  intros H. unfold wrap_int.
  pose proof (Z.mod_le (z + 2 ^ 31) (2 ^ 32) ltac:(lia) ltac:(lia)).
  lia.
Qed.

Lemma firstn_le_eq (A : Type) (m n : nat) (a b : list A) :
  m <= n -> firstn n a = firstn n b -> firstn m a = firstn m b.
Proof.
  intros Hle E.
  rewrite <- (Nat.min_l m n Hle), <- !firstn_firstn. now rewrite E.
Qed.

Lemma firstn_remove_at (m n : nat) (l : list byte) :
  m <= n -> firstn m (remove_at l n) = firstn m l.
Proof.
  intros Hle. unfold remove_at.
  rewrite firstn_app, firstn_firstn, Nat.min_l, length_firstn by assumption.
  destruct (Nat.le_gt_cases n (List.length l)) as [H|H].
  - replace (m - Nat.min n (List.length l)) with 0 by lia.
    simpl. apply app_nil_r.
  - rewrite (skipn_all2 l) by lia. rewrite firstn_nil. apply app_nil_r.
Qed.

Lemma firstn_splice (m p klen : nat) (v l : list byte) :
  m <= p -> p <= List.length l -> firstn m (splice l p klen v) = firstn m l.
Proof.
  intros Hle Hp. unfold splice.
  rewrite firstn_app, firstn_firstn, Nat.min_l, length_firstn by assumption.
  replace (m - Nat.min p (List.length l)) with 0 by lia.
  simpl. apply app_nil_r.
Qed.

Lemma firstn_splice_value (p klen : nat) (v l : list byte) (n : nat) :
  p <= List.length l -> n <= p + List.length v ->
  firstn n (splice l p klen v) = firstn n (firstn p l ++ v).
Proof.
  intros Hp Hn. unfold splice. rewrite app_assoc.
  rewrite (firstn_app n (firstn p l ++ v)).
  rewrite length_app, length_firstn.
  replace (n - (Nat.min p (List.length l) + List.length v)) with 0 by lia.
  simpl. apply app_nil_r.
Qed.

(** *** The replacement in one sweep *)

Lemma replace_from_skip (k v : list byte) :
  forall s n, replace_from n k v s = replace_from 0 k v (skipn n s).
Proof.
  induction s as [|c s IH]; intros [|n]; try reflexivity.
  simpl. apply IH.
Qed.

Lemma replace_from_match (k v s : list byte) :
  k <> [] ->
  is_prefix k s = true ->
  replace_from 0 k v s
  = v ++ replace_from 0 k v (skipn (List.length k) s).
Proof.
  intros Hk H. destruct s as [|c s].
  - destruct k; [congruence | discriminate].
  - change (replace_from 0 k v (c :: s))
      with (if is_prefix k (c :: s)
            then v ++ replace_from (List.length k - 1) k v s
            else c :: replace_from 0 k v s).
    rewrite H, replace_from_skip. destruct k as [|x k]; [congruence|].
    simpl. now rewrite Nat.sub_0_r.
Qed.

Lemma replace_from_strstr (k v : list byte) :
  k <> [] ->
  forall s j,
    strstr s k = Some j ->
    replace_from 0 k v s
    = firstn j s ++ v ++ replace_from 0 k v (skipn (j + List.length k) s).
Proof.
  intros Hk. induction s as [|c s IH]; intros j.
  - rewrite strstr_nil by assumption. discriminate.
  - change (strstr (c :: s) k)
      with (if is_prefix k (c :: s) then Some 0
            else option_map S (strstr s k)).
    destruct (is_prefix k (c :: s)) eqn:E.
    + intros [= <-]. now apply replace_from_match.
    + destruct (strstr s k) as [j'|]; [|discriminate].
      intros [= <-].
      change (replace_from 0 k v (c :: s))
        with (if is_prefix k (c :: s)
              then v ++ replace_from (List.length k - 1) k v s
              else c :: replace_from 0 k v s).
      rewrite E, (IH j' eq_refl). reflexivity.
Qed.

Lemma replace_from_none (k v : list byte) :
  forall s, strstr s k = None -> replace_from 0 k v s = s.
Proof.
  induction s as [|c s IH]; [reflexivity|].
  change (strstr (c :: s) k)
    with (if is_prefix k (c :: s) then Some 0
          else option_map S (strstr s k)).
  change (replace_from 0 k v (c :: s))
    with (if is_prefix k (c :: s)
          then v ++ replace_from (List.length k - 1) k v s
          else c :: replace_from 0 k v s).
  destruct (is_prefix k (c :: s)); [discriminate|].
  destruct (strstr s k); [discriminate|].
  intros _. now rewrite IH.
Qed.

(** A value at least as long as the key makes the text no shorter. *)
Lemma replace_from_length (k v : list byte) :
  k <> [] ->
  List.length k <= List.length v ->
  forall n s,
    List.length s <= n ->
    List.length s <= List.length (replace_from 0 k v s).
Proof.
  intros Hk Hkv. induction n as [|n IH]; intros s Hn.
  - destruct s; simpl in *; lia.
  - destruct (strstr s k) as [j|] eqn:E.
    + rewrite (replace_from_strstr v Hk _ E).
      apply strstr_bound in E.
      assert (Hlen : 1 <= List.length k)
        by (destruct k; simpl; [congruence|lia]).
      specialize (IH (skipn (j + List.length k) s)).
      rewrite length_skipn in IH.
      rewrite !length_app, length_firstn. lia.
    + now rewrite replace_from_none.
Qed.

Lemma In_firstn (A : Type) (x : A) (l : list A) :
  forall n, In x (firstn n l) -> In x l.
Proof.
  induction l as [|y l IH]; intros [|n]; simpl; try tauto.
  intros [H|H]; [now left | right; eauto].
Qed.

Lemma In_skipn (A : Type) (x : A) (l : list A) :
  forall n, In x (skipn n l) -> In x l.
Proof.
  induction l as [|y l IH]; intros [|n]; simpl; try tauto.
  intros H. right. eauto.
Qed.

Lemma firstn_length_app (A : Type) (a b : list A) :
  firstn (List.length a) (a ++ b) = a.
Proof. induction a as [|x a IH]; simpl; [now destruct b | now rewrite IH]. Qed.

Lemma skipn_length_app (A : Type) (a b : list A) :
  skipn (List.length a) (a ++ b) = b.
Proof. induction a as [|x a IH]; simpl; [reflexivity | exact IH]. Qed.

Lemma firstn_plus (A : Type) (l : list A) :
  forall n m, firstn n l ++ firstn m (skipn n l) = firstn (n + m) l.
Proof.
  induction l as [|x l IH]; intros [|n] m; simpl; try reflexivity.
  - now rewrite firstn_nil.
  - now rewrite IH.
Qed.

Section InBlockFacts.

Variable is_valid_cmd : list byte -> list byte -> Z -> bool.

(** At an offset that an [int] holds, [is_valid_alias] leaves the context
    alone or deletes the character before the offset. *)
Lemma is_valid_alias_at (k context : list byte) (p : nat) :
  fst (is_valid_alias is_valid_cmd k context (Z.of_nat p)) = context
  \/ (0 < p /\ p - 1 < List.length context
      /\ is_valid_alias is_valid_cmd k context (Z.of_nat p)
         = (remove_at context (p - 1), false)).
Proof.
  unfold is_valid_alias.
  destruct ((0 <? Z.of_nat p)%Z
            && Byte.eqb (char_at context (Z.of_nat p - 1)) backslash) eqn:E.
  - right. apply andb_true_iff in E as [E1 E2].
    apply Z.ltb_lt in E1. apply byte_eqb_true in E2.
    unfold char_at in E2.
    replace (Z.to_nat (Z.of_nat p - 1)) with (p - 1) in * by lia.
    apply nth_backslash_in_range in E2.
    split; [lia|]. split; [assumption | reflexivity].
  - left. destruct (Byte.eqb (hd NUL k) tilde); reflexivity.
Qed.

(** One round of the pass, as the loop body reads. *)
Lemma resolve_alias_in_block_round (size : Z) (fuel : nat)
  (k v ret : list byte) (str : nat) :
  resolve_alias_in_block is_valid_cmd size (S fuel) k v ret str
  = match strstr (skipn str ret) k with
    | None => Done (ret, [])
    | Some j =>
        let p := str + j in
        let (ret', valid) :=
          is_valid_alias is_valid_cmd k ret (wrap_int (Z.of_nat p)) in
        if valid
        then
          let ret2 := splice ret' p (List.length k) v in
          if (Z.of_nat (List.length ret2) + 1 <=? size)%Z
          then
            r <- resolve_alias_in_block is_valid_cmd size fuel k v ret2
                   (p + List.length v) ;;
            Done (fst r, (p, true) :: snd r)
          else Undefined
        else
          r <- resolve_alias_in_block is_valid_cmd size fuel k v ret'
                 (p + List.length k) ;;
          Done (fst r, (p, false) :: snd r)
    end.
Proof. reflexivity. Qed.

(** What a returning pass has done in its first round. *)
Lemma resolve_alias_in_block_inv (size : Z) (fuel : nat) (k v ret : list byte)
  (str : nat) (r : list byte) (log : list (nat * bool)) :
  resolve_alias_in_block is_valid_cmd size (S fuel) k v ret str
  = Done (r, log) ->
  (strstr (skipn str ret) k = None /\ r = ret /\ log = [])
  \/ exists j ret' valid log',
       strstr (skipn str ret) k = Some j
       /\ is_valid_alias is_valid_cmd k ret (wrap_int (Z.of_nat (str + j)))
          = (ret', valid)
       /\ log = (str + j, valid) :: log'
       /\ if valid
          then (Z.of_nat (List.length (splice ret' (str + j) (List.length k) v))
                + 1 <= size)%Z
               /\ resolve_alias_in_block is_valid_cmd size fuel k v
                    (splice ret' (str + j) (List.length k) v)
                    (str + j + List.length v) = Done (r, log')
          else resolve_alias_in_block is_valid_cmd size fuel k v ret'
                 (str + j + List.length k) = Done (r, log').
Proof.
  simpl. destruct (strstr (skipn str ret) k) as [j|].
  - cbv zeta.
    destruct (is_valid_alias is_valid_cmd k ret (wrap_int (Z.of_nat (str + j))))
      as [ret' valid] eqn:Ev.
    destruct valid.
    + destruct (Z.of_nat (List.length (splice ret' (str + j) (List.length k) v))
                + 1 <=? size)%Z eqn:Esz; [|discriminate].
      apply Z.leb_le in Esz. intros H.
      bind_inv H. destruct a as [r1 l1]. injection H as <- <-.
      right. exists j, ret', true, l1. simpl. auto.
    + intros H. bind_inv H. destruct a as [r1 l1]. injection H as <- <-.
      right. exists j, ret', false, l1. simpl. auto.
  - intros [= <- <-]. left. auto.
Qed.

(** The text that a pass inside its block returns is the text of the pass. *)
Lemma resolve_alias_in_block_text (size : Z) (fuel : nat) (k v : list byte) :
  forall ret str r log,
    resolve_alias_in_block is_valid_cmd size fuel k v ret str = Done (r, log) ->
    resolve_alias is_valid_cmd fuel k v ret str = Done r.
Proof.
  induction fuel as [|fuel IH]; intros ret str r log H; [discriminate|].
  apply resolve_alias_in_block_inv in H
    as [(Es & -> & _)|(j & ret' & valid & log' & Es & Ev & _ & H)];
    rewrite resolve_alias_round, Es; [reflexivity|].
  cbv zeta. rewrite Ev.
  destruct valid; [destruct H as [_ H]|]; exact (IH _ _ _ _ H).
Qed.

(** Every match of a pass lies at or behind the offset it started from. *)
Lemma resolve_alias_in_block_offsets (size : Z) (fuel : nat)
  (k v : list byte) :
  forall ret str r log,
    resolve_alias_in_block is_valid_cmd size fuel k v ret str = Done (r, log) ->
    Forall (fun e => str <= fst e) log.
Proof.
  induction fuel as [|fuel IH]; intros ret str r log H; [discriminate|].
  apply resolve_alias_in_block_inv in H
    as [(_ & _ & ->)|(j & ret' & valid & log' & _ & _ & -> & H)];
    [constructor|].
  constructor; [simpl; lia|].
  assert (Hrest : exists str', str <= str'
                    /\ Forall (fun e => str' <= fst e) log').
  { destruct valid; [destruct H as [_ H]|]; apply IH in H; eauto with arith. }
  destruct Hrest as (str' & Hle & Hrest).
  eapply Forall_impl; [|exact Hrest]. simpl. intros e He. lia.
Qed.

Lemma resolve_alias_in_block_moves_on (size : Z) (fuel : nat)
  (k v : list byte) :
  forall ret str r log,
    resolve_alias_in_block is_valid_cmd size fuel k v ret str = Done (r, log) ->
    scan_moves_on (List.length k) (List.length v) log.
Proof.
  induction fuel as [|fuel IH]; intros ret str r log H; [discriminate|].
  apply resolve_alias_in_block_inv in H
    as [(_ & _ & ->)|(j & ret' & valid & log' & _ & _ & -> & H)];
    [exact I|].
  simpl. destruct valid; [destruct H as [_ H]|];
    (split; [exact (resolve_alias_in_block_offsets _ _ _ _ _ _ H)
            | exact (IH _ _ _ _ H)]).
Qed.

(** A returning pass has kept the string and its terminator in the block. *)
Lemma resolve_alias_in_block_length (size : Z) (fuel : nat)
  (k v : list byte) :
  forall ret str r log,
    (Z.of_nat (List.length ret) + 1 <= size)%Z ->
    resolve_alias_in_block is_valid_cmd size fuel k v ret str = Done (r, log) ->
    (Z.of_nat (List.length r) + 1 <= size)%Z.
Proof.
  induction fuel as [|fuel IH]; intros ret str r log Hsz H; [discriminate|].
  apply resolve_alias_in_block_inv in H
    as [(_ & -> & _)|(j & ret' & valid & log' & _ & Ev & _ & H)];
    [assumption|].
  destruct valid.
  - destruct H as [Hsz' H]. exact (IH _ _ _ _ Hsz' H).
  - refine (IH _ _ _ _ _ H).
    pose proof (is_valid_alias_length is_valid_cmd k ret
                  (wrap_int (Z.of_nat (str + j)))) as Hl.
    rewrite Ev in Hl. simpl in Hl. lia.
Qed.

(** The loop of a pass for a non-empty key ends: it returns, or a write
    leaves the block. *)
Lemma resolve_alias_in_block_ends (size : Z) (fuel : nat) (k v : list byte) :
  k <> [] ->
  forall ret str,
    List.length ret - str < fuel ->
    resolve_alias_in_block is_valid_cmd size fuel k v ret str <> Timeout.
Proof.
  intros Hk. induction fuel as [|fuel IH]; intros ret str Hfuel; [lia|].
  simpl. destruct (strstr (skipn str ret) k) as [j|] eqn:Es; [|discriminate].
  apply strstr_bound in Es. rewrite length_skipn in Es.
  assert (Hlen : 1 <= List.length k) by (destruct k; simpl; [congruence|lia]).
  cbv zeta.
  assert (Hb : forall (b : bool) c,
             c <> Timeout ->
             (r <- c ;; Done (fst r, (str + j, b) :: snd r))
             <> (Timeout : outcome (list byte * list (nat * bool)))).
  { intros b [a| |] Hc; simpl; congruence. }
  destruct (is_valid_alias_cases is_valid_cmd k ret
              (wrap_int (Z.of_nat (str + j)))) as [(n & Hn & E)|E].
  - rewrite E. apply Hb, IH.
    apply nth_backslash_in_range in Hn.
    rewrite remove_at_length by assumption. lia.
  - destruct (is_valid_alias is_valid_cmd k ret (wrap_int (Z.of_nat (str + j))))
      as [ret' valid]; simpl in E; subst ret'.
    destruct valid.
    + destruct (Z.of_nat (List.length (splice ret (str + j) (List.length k) v))
                + 1 <=? size)%Z; [|discriminate].
      apply Hb, IH. rewrite splice_length by lia. lia.
    + apply Hb, IH. lia.
Qed.

(** A pass for the empty key does not return. *)
Lemma resolve_alias_in_block_empty_key (size : Z) (fuel : nat)
  (v : list byte) :
  forall ret str r log,
    resolve_alias_in_block is_valid_cmd size fuel [] v ret str
    <> Done (r, log).
Proof.
  induction fuel as [|fuel IH]; intros ret str r log H; [discriminate|].
  apply resolve_alias_in_block_inv in H
    as [(Es & _)|(j & ret' & valid & log' & _ & _ & _ & H)].
  - rewrite strstr_empty_needle in Es. discriminate.
  - destruct valid; [destruct H as [_ H]|]; exact (IH _ _ _ _ H).
Qed.

(** A pass does not touch the text before the offset it started from, but
    for the character right before it, which an escape may delete. *)
Lemma resolve_alias_in_block_prefix (size : Z) (fuel : nat)
  (k v : list byte) :
  (size <= 2 ^ 31)%Z ->
  forall ret str r log,
    (Z.of_nat (List.length ret) + 1 <= size)%Z ->
    resolve_alias_in_block is_valid_cmd size fuel k v ret str = Done (r, log) ->
    firstn (str - 1) r = firstn (str - 1) ret.
Proof.
  intros Hsize.
  induction fuel as [|fuel IH]; intros ret str r log Hsz H; [discriminate|].
  destruct k as [|c k'] eqn:Ek.
  { now apply resolve_alias_in_block_empty_key in H. }
  rewrite <- Ek in *.
  assert (Hlen : 1 <= List.length k) by (subst k; simpl; lia).
  apply resolve_alias_in_block_inv in H
    as [(_ & -> & _)|(j & ret' & valid & log' & Es & Ev & _ & H)];
    [reflexivity|].
  apply strstr_bound in Es. rewrite length_skipn in Es.
  rewrite wrap_int_small in Ev by (unfold INT_MAX; lia).
  destruct (is_valid_alias_at k ret (str + j)) as [E|(Hp & Hin & E)].
  - rewrite Ev in E. simpl in E. subst ret'.
    destruct valid.
    + destruct H as [Hsz' H].
      apply (IH _ _ _ _ Hsz') in H.
      apply (@firstn_le_eq _ (str - 1)) in H; [|lia].
      rewrite H. apply firstn_splice; lia.
    + apply (IH _ _ _ _ Hsz) in H.
      apply (@firstn_le_eq _ (str - 1)) in H; [exact H | lia].
  - rewrite Ev in E. injection E as -> ->.
    assert (Hsz' : (Z.of_nat (List.length (remove_at ret (str + j - 1))) + 1
                    <= size)%Z)
      by (rewrite remove_at_length by assumption; lia).
    apply (IH _ _ _ _ Hsz') in H.
    apply (@firstn_le_eq _ (str - 1)) in H; [|lia].
    rewrite H. apply firstn_remove_at. lia.
Qed.

(** The pass over a buffer that holds the key and nothing else. *)
Lemma resolve_alias_in_block_key (size : Z) (fuel : nat) (k v : list byte) :
  k <> [] ->
  Byte.eqb (hd NUL k) tilde || is_valid_cmd k k 0%Z = true ->
  (Z.of_nat (List.length v) + 1 <= size)%Z ->
  resolve_alias_in_block is_valid_cmd size (S (S fuel)) k v k 0
  = Done (v, [(0, true)]).
Proof.
  intros Hk Hv Hsz.
  rewrite resolve_alias_in_block_round. change (skipn 0 k) with k.
  rewrite strstr_self. cbv zeta.
  change (wrap_int (Z.of_nat (0 + 0))) with 0%Z.
  unfold is_valid_alias. simpl ((0 <? 0)%Z && _).
  cbv iota.
  assert (E : (if Byte.eqb (hd NUL k) tilde then (k, true)
               else (k, is_valid_cmd k k 0%Z)) = (k, true)).
  { destruct (Byte.eqb (hd NUL k) tilde); [reflexivity|].
    simpl in Hv. now rewrite Hv. }
  rewrite E.
  assert (Es : splice k (0 + 0) (List.length k) v = v).
  { unfold splice. simpl. rewrite skipn_all. apply app_nil_r. }
  rewrite Es.
  apply Z.leb_le in Hsz. rewrite Hsz.
  rewrite resolve_alias_in_block_round.
  change (0 + 0 + List.length v) with (List.length v).
  rewrite skipn_all. rewrite strstr_nil by assumption.
  reflexivity.
Qed.

(** Where no backslash stands in the text, [is_valid_alias] leaves it
    alone. *)
Lemma is_valid_alias_plain (k context : list byte) (i : Z) :
  ~ In backslash context ->
  is_valid_alias is_valid_cmd k context i
  = (context, Byte.eqb (hd NUL k) tilde || is_valid_cmd k context i).
Proof.
  intros Hno. unfold is_valid_alias.
  destruct ((0 <? i)%Z && Byte.eqb (char_at context (i - 1)) backslash)
    eqn:E.
  - apply andb_true_iff in E as [_ E]. apply byte_eqb_true in E.
    unfold char_at in E. pose proof (nth_backslash_in_range _ _ E) as Hin.
    exfalso. apply Hno. rewrite <- E. now apply nth_In.
  - destruct (Byte.eqb (hd NUL k) tilde); reflexivity.
Qed.

(** With every match valid and no backslash about, a pass in a block that
    holds the text before and after is the replacement in one sweep. *)
Lemma resolve_alias_in_block_replaces (size : Z) (fuel : nat)
  (k v : list byte) :
  k <> [] ->
  (forall context i,
      Byte.eqb (hd NUL k) tilde || is_valid_cmd k context i = true) ->
  ~ In backslash v ->
  forall ret str,
    ~ In backslash ret ->
    str <= List.length ret ->
    List.length ret - str < fuel ->
    (Z.of_nat (List.length ret) + 1 <= size)%Z ->
    (Z.of_nat (List.length (firstn str ret
                            ++ replace_from 0 k v (skipn str ret))) + 1
     <= size)%Z ->
    exists log,
      resolve_alias_in_block is_valid_cmd size fuel k v ret str
      = Done (firstn str ret ++ replace_from 0 k v (skipn str ret), log).
Proof.
  intros Hk Hvalid Hv.
  assert (Hlen : 1 <= List.length k) by (destruct k; simpl; [congruence|lia]).
  induction fuel as [|fuel IH]; intros ret str Hret Hstr Hfuel Hsz Hfin;
    [lia|].
  rewrite resolve_alias_in_block_round.
  destruct (strstr (skipn str ret) k) as [j|] eqn:Es.
  - pose proof (strstr_bound _ _ Es) as Hb. rewrite length_skipn in Hb.
    cbv zeta. rewrite is_valid_alias_plain, Hvalid by assumption.
    set (p := str + j) in *.
    assert (Efin : firstn (p + List.length v) (splice ret p (List.length k) v)
                   ++ replace_from 0 k v
                        (skipn (p + List.length v)
                           (splice ret p (List.length k) v))
                   = firstn str ret ++ replace_from 0 k v (skipn str ret)).
    { rewrite (replace_from_strstr v Hk _ Es).
      rewrite app_assoc, firstn_plus. fold p.
      rewrite skipn_skipn.
      replace (j + List.length k + str) with (p + List.length k)
        by (unfold p; lia).
      unfold splice. rewrite (app_assoc (firstn p ret)).
      replace (p + List.length v)
        with (List.length (firstn p ret ++ v))
        by (rewrite length_app, length_firstn; unfold p; lia).
      rewrite firstn_length_app, skipn_length_app.
      now rewrite <- app_assoc. }
    assert (Hsz2 : (Z.of_nat (List.length (splice ret p (List.length k) v))
                    + 1 <= size)%Z).
    { rewrite splice_length by (unfold p; lia).
      destruct (Nat.le_gt_cases (List.length v) (List.length k)) as [Hle|Hgt];
        [lia|].
      rewrite (replace_from_strstr v Hk _ Es) in Hfin.
      rewrite skipn_skipn in Hfin.
      pose proof (@replace_from_length k v Hk ltac:(lia) _
                    (skipn (j + List.length k + str) ret)
                    (Nat.le_refl _)) as Hge.
      rewrite !length_app, !length_firstn, length_skipn in Hfin.
      rewrite length_skipn in Hge. unfold p. lia. }
    apply Z.leb_le in Hsz2 as Hsz2b. rewrite Hsz2b.
    destruct (IH (splice ret p (List.length k) v) (p + List.length v))
      as [log' Hlog'].
    + unfold splice. rewrite !in_app_iff.
      intros [H|[H|H]]; [| now apply Hv |].
      * apply Hret. eapply In_firstn; exact H.
      * apply Hret. eapply In_skipn; exact H.
    + rewrite splice_length by (unfold p; lia). unfold p. lia.
    + rewrite splice_length by (unfold p; lia). unfold p. lia.
    + exact Hsz2.
    + rewrite Efin. exact Hfin.
    + rewrite Hlog', Efin. simpl. eauto.
  - rewrite replace_from_none, firstn_skipn by assumption. eauto.
Qed.

Lemma resolve_from_in_block_text (size : Z) (fuel : nat)
  (cur : list struct_alias) :
  forall ret r,
    resolve_from_in_block is_valid_cmd size fuel cur ret = Done r ->
    resolve_from is_valid_cmd fuel cur ret = Done r.
Proof.
  induction cur as [|a next IH]; intros ret r; simpl; [auto|].
  destruct (c_str (key a)) as [k|]; [|discriminate].
  intros H. bind_inv H. destruct a0 as [r1 l1].
  apply resolve_alias_in_block_text in E. rewrite E. simpl.
  now apply IH.
Qed.

Lemma resolve_from_in_block_length (size : Z) (fuel : nat)
  (cur : list struct_alias) :
  forall ret r,
    (Z.of_nat (List.length ret) + 1 <= size)%Z ->
    resolve_from_in_block is_valid_cmd size fuel cur ret = Done r ->
    (Z.of_nat (List.length r) + 1 <= size)%Z.
Proof.
  induction cur as [|a next IH]; intros ret r Hsz; simpl.
  - now intros [= <-].
  - destruct (c_str (key a)) as [k|]; [|discriminate].
    intros H. bind_inv H. destruct a0 as [r1 l1].
    simpl in H. refine (IH _ _ _ H).
    eapply resolve_alias_in_block_length; eassumption.
Qed.

Lemma resolve_from_in_block_ends (size : Z) (fuel : nat)
  (cur : list struct_alias) :
  forallb proper_key cur = true ->
  Z.to_nat size <= fuel ->
  forall ret,
    (Z.of_nat (List.length ret) + 1 <= size)%Z ->
    resolve_from_in_block is_valid_cmd size fuel cur ret <> Timeout.
Proof.
  intros Hok Hfuel.
  induction cur as [|a next IH]; intros ret Hsz; simpl; [discriminate|].
  simpl in Hok. apply andb_true_iff in Hok as [Ha Hnext].
  unfold proper_key in Ha.
  destruct (c_str (key a)) as [[|c k]|]; try discriminate.
  pose proof (@resolve_alias_in_block_ends size fuel (c :: k) (value a)
                ltac:(discriminate) ret 0 ltac:(lia)) as Hpass.
  destruct (resolve_alias_in_block is_valid_cmd size fuel (c :: k) (value a)
              ret 0) as [[r1 l1]| |] eqn:E; simpl; try congruence.
  apply (IH Hnext).
  eapply resolve_alias_in_block_length; eassumption.
Qed.

Lemma resolvealiases_in_block_text (ret_ok : bool) (fuel : nat) (st : state)
  (s r : list byte) :
  resolvealiases_in_block is_valid_cmd ret_ok fuel st s = Done r ->
  resolvealiases is_valid_cmd ret_ok fuel st s = Done r.
Proof.
  unfold resolvealiases_in_block, resolvealiases.
  destruct ret_ok; simpl; [|discriminate].
  destruct (Z.of_nat (List.length s) + 1 <=? maxsize st s)%Z; [|discriminate].
  apply resolve_from_in_block_text.
Qed.

(** What [alias] returns when no write leaves the block is what it returns
    with the buffer that grows. *)
Lemma alias_in_block_text (ret_ok new_ok key_ok : bool) (fuel : nat)
  (st : state) (k v : list byte) (x : state * Z) :
  alias_in_block is_valid_cmd ret_ok new_ok key_ok fuel st k v = Done x ->
  alias is_valid_cmd ret_ok new_ok key_ok fuel st k v = Done x.
Proof.
  unfold alias_in_block, alias. intros H.
  destruct (resolvealiases_in_block is_valid_cmd ret_ok fuel st v)
    as [val| |] eqn:E; try discriminate.
  apply resolvealiases_in_block_text in E. rewrite E. exact H.
Qed.

(** The value that a returning [alias] has stored. *)
Lemma alias_in_block_value (ret_ok new_ok key_ok : bool) (fuel : nat)
  (st st' : state) (k v : list byte) (rc : Z) :
  alias_in_block is_valid_cmd ret_ok new_ok key_ok fuel st k v
  = Done (st', rc) ->
  exists val,
    resolvealiases_in_block is_valid_cmd ret_ok fuel st v = Done val
    /\ (Z.of_nat (List.length val) + 1 <= maxsize st v)%Z.
Proof.
  unfold alias_in_block. intros H. bind_inv H.
  exists a. split; [reflexivity|].
  unfold resolvealiases_in_block in E.
  destruct ret_ok; simpl in E; [|discriminate].
  destruct (Z.of_nat (List.length v) + 1 <=? maxsize st v)%Z eqn:Esz;
    [|discriminate].
  apply Z.leb_le in Esz.
  eapply resolve_from_in_block_length; eassumption.
Qed.

End InBlockFacts.

(** ** The example tables are what [alias] builds *)

Lemma alias_builds_st_ls (is_valid_cmd : list byte -> list byte -> Z -> bool)
  (fuel : nat) :
  alias is_valid_cmd true true true fuel initial (cstr "ls")
    (cstr "ls --color") = Done (st_ls, EXIT_SUCCESS).
Proof. reflexivity. Qed.

Lemma alias_builds_st_tilde
  (is_valid_cmd : list byte -> list byte -> Z -> bool) (fuel : nat) :
  alias is_valid_cmd true true true fuel initial (cstr "~")
    (cstr "/home/jo") = Done (st_tilde, EXIT_SUCCESS).
Proof. reflexivity. Qed.

(** ** The claims *)

(** C1 (defect of the code). The claim bounds the length of the string
    [resolvealiases] returns by [strlen(s)] plus the aggregate value length,
    the size of the buffer it allocates. With the alias [~ -> /home/jo]
    (aggregate length 8) and the input [~ ~] the buffer has 11 bytes and the
    code writes the 17 characters [/home/jo /home/jo] into it, whatever the
    validity predicate answers. *)
Theorem resolvealiases_exceeds_maxsize
  (is_valid_cmd : list byte -> list byte -> Z -> bool) (fuel : nat) :
  alias is_valid_cmd true true true fuel initial (cstr "~") (cstr "/home/jo")
  = Done (st_tilde, EXIT_SUCCESS)
  /\ resolvealiases is_valid_cmd true (3 + fuel) st_tilde (cstr "~ ~")
     = Done (cstr "/home/jo /home/jo")
  /\ maxsize st_tilde (cstr "~ ~") = 11%Z
  /\ Z.of_nat (List.length (cstr "/home/jo /home/jo")) = 17%Z.
Proof. repeat split. Qed.

(** C2 (defect of the code). The claim has the stored value cut to its first
    200 characters and the stored key to its first 50. [alias] measures the
    value with [strnlen] for the counter only and stores the string
    [resolvealiases] returned as it is: a value of 250 characters is stored
    with all 250 while the counter grows by 200. For a key of 60 characters
    [strncpy] writes 51 characters and no terminator, so the block holds no
    string at all. *)
Theorem alias_stores_value_untruncated
  (is_valid_cmd : list byte -> list byte -> Z -> bool) (fuel : nat) :
  alias is_valid_cmd true true true fuel initial (cstr "k") long_value
  = Done (st_long_value, EXIT_SUCCESS)
  /\ map value (head st_long_value) = [long_value]
  /\ List.length long_value = 250
  /\ total_alias_val_length st_long_value = 200%Z
  /\ alias is_valid_cmd true true true fuel initial long_key (cstr "one")
     = Done (st_long_key, EXIT_SUCCESS)
  /\ map key (head st_long_key) = [firstn 51 long_key]
  /\ map (fun a => c_str (key a)) (head st_long_key) = [None].
Proof. repeat split. Qed.

(** C3 (defect of the code). The claim has the scan resume right behind the
    key text once the backslash is gone. [resolvealiases] resumes at
    [p + strlen(key)] with the [p] it had before [is_valid_alias] moved the
    text one place to the left, that is one character further
    ([resolve_alias_escaped]); a match that starts at the skipped character
    is lost. With the alias [~ -> /home/jo] the input [\~~] comes out as
    [~~], while the pass as the specification words it gives [~/home/jo].
    The example of the claim holds: [\ls] gives [ls]. *)
Theorem resolvealiases_escape_skips_one
  (is_valid_cmd : list byte -> list byte -> Z -> bool) (fuel : nat) :
  resolvealiases is_valid_cmd true (2 + fuel) st_tilde (cstr "\~~")
  = Done (cstr "~~")
  /\ resolve_alias_as_specified is_valid_cmd (3 + fuel) (cstr "~")
       (cstr "/home/jo") (cstr "\~~") 0
     = Done (cstr "~/home/jo")
  /\ resolvealiases is_valid_cmd true (2 + fuel) st_ls (cstr "\ls")
     = Done (cstr "ls").
Proof. repeat split. Qed.




(** C5. In the block that [resolvealiases] writes into, a pass does not
    match the text a valid round has put in. Of every pass that returns: the
    first match of its log is the occurrence [strstr] finds first, with the
    verdict of [is_valid_alias]; after a valid round at [p] the rest of the
    pass is the pass over the buffer with the value in the place of the
    key, from [p + strlen(value)] on; every match after a valid round at
    [p] lies at [p + strlen(value)] or behind it, and every match after an
    invalid round behind the key; and after a valid round at [p] the result
    begins with the text before [p] and the value as they were put (but
    for the last character of the value, which an escape right behind it
    may delete). When every match is valid and no backslash stands in the text
    or in the value, a pass in a block that holds the text before and after
    returns the replacement in one sweep ([replace_from]): the occurrences
    of the key in the text as it was given are replaced from left to right,
    each where the one before it ended or behind, and nothing is looked for
    in a value that was put in. A buffer that holds the key alone, valid
    there, comes back as the value after one match, also when the key
    occurs in the value. The loop of a pass for a non-empty key ends within
    [strlen(ret) + 1] rounds: the pass returns or a write leaves the block.
    With [ls -> ls --color], [ls] in a valid position resolves to
    [ls --color]. *)
Theorem resolve_alias_in_block_never_rematches
  (is_valid_cmd : list byte -> list byte -> Z -> bool) (size : Z) :
  (forall fuel k v ret str r log,
      resolve_alias_in_block is_valid_cmd size fuel k v ret str
      = Done (r, log) ->
      scan_moves_on (List.length k) (List.length v) log
      /\ match strstr (skipn str ret) k with
         | None => r = ret /\ log = []
         | Some j =>
             exists log',
               log = (str + j,
                      snd (is_valid_alias is_valid_cmd k ret
                             (wrap_int (Z.of_nat (str + j))))) :: log'
         end)
  /\ (forall fuel k v ret str j r log,
         strstr (skipn str ret) k = Some j ->
         snd (is_valid_alias is_valid_cmd k ret
                (wrap_int (Z.of_nat (str + j)))) = true ->
         resolve_alias_in_block is_valid_cmd size (S fuel) k v ret str
         = Done (r, log) ->
         exists log',
           log = (str + j, true) :: log'
           /\ resolve_alias_in_block is_valid_cmd size fuel k v
                (firstn (str + j) ret ++ v
                 ++ skipn (str + j + List.length k) ret)
                (str + j + List.length v)
              = Done (r, log'))
  /\ (forall fuel k v ret str j r log,
         (size <= 2 ^ 31)%Z ->
         (Z.of_nat (List.length ret) + 1 <= size)%Z ->
         strstr (skipn str ret) k = Some j ->
         snd (is_valid_alias is_valid_cmd k ret
                (wrap_int (Z.of_nat (str + j)))) = true ->
         resolve_alias_in_block is_valid_cmd size fuel k v ret str
         = Done (r, log) ->
         firstn (str + j + List.length v - 1) r
         = firstn (str + j + List.length v - 1) (firstn (str + j) ret ++ v))
  /\ (forall fuel k v ret,
         k <> [] ->
         (forall context i,
             Byte.eqb (hd NUL k) tilde || is_valid_cmd k context i = true) ->
         ~ In backslash ret ->
         ~ In backslash v ->
         List.length ret < fuel ->
         (Z.of_nat (List.length ret) + 1 <= size)%Z ->
         (Z.of_nat (List.length (replace_from 0 k v ret)) + 1 <= size)%Z ->
         exists log,
           resolve_alias_in_block is_valid_cmd size fuel k v ret 0
           = Done (replace_from 0 k v ret, log))
  /\ (forall fuel k v,
         k <> [] ->
         Byte.eqb (hd NUL k) tilde || is_valid_cmd k k 0%Z = true ->
         (Z.of_nat (List.length v) + 1 <= size)%Z ->
         resolve_alias_in_block is_valid_cmd size (S (S fuel)) k v k 0
         = Done (v, [(0, true)]))
  /\ (forall fuel k v ret str,
         k <> [] ->
         List.length ret - str < fuel ->
         resolve_alias_in_block is_valid_cmd size fuel k v ret str
         <> Timeout)
  /\ (is_valid_cmd (cstr "ls") (cstr "ls") 0%Z = true ->
      forall fuel,
        resolvealiases_in_block is_valid_cmd true (S (S fuel)) st_ls
          (cstr "ls")
        = Done (cstr "ls --color")).
Proof.
  split; [|split; [|split; [|split; [|split; [|split]]]]].
  - intros fuel k v ret str r log H. split.
    + eapply resolve_alias_in_block_moves_on; exact H.
    + destruct fuel as [|fuel]; [discriminate|].
      apply resolve_alias_in_block_inv in H
        as [(Es & -> & ->)|(j & ret' & valid & log' & Es & Ev & -> & _)];
        rewrite Es; [auto|].
      exists log'. now rewrite Ev.
  - intros fuel k v ret str j r log Es Hvalid H.
    apply resolve_alias_in_block_inv in H
      as [(Es' & _)|(j' & ret' & valid & log' & Es' & Ev & -> & H)];
      rewrite Es in Es'; [discriminate|].
    injection Es' as <-.
    rewrite Ev in Hvalid. simpl in Hvalid. subst valid.
    apply is_valid_alias_true in Ev. subst ret'.
    destruct H as [_ H]. exists log'. split; [reflexivity | exact H].
  - intros fuel k v ret str j r log Hsize Hsz Es Hvalid H.
    assert (Hk : k <> []).
    { intros ->. now apply resolve_alias_in_block_empty_key in H. }
    assert (Hlen : 1 <= List.length k)
      by (destruct k; simpl; [congruence|lia]).
    destruct fuel as [|fuel]; [discriminate|].
    apply resolve_alias_in_block_inv in H
      as [(Es' & _)|(j' & ret' & valid & log' & Es' & Ev & _ & H)];
      rewrite Es in Es'; [discriminate|].
    injection Es' as <-.
    rewrite Ev in Hvalid. simpl in Hvalid. subst valid.
    apply is_valid_alias_true in Ev. subst ret'.
    destruct H as [Hsz' H].
    apply strstr_bound in Es. rewrite length_skipn in Es.
    pose proof (@resolve_alias_in_block_prefix is_valid_cmd size fuel k v
                  Hsize _ _ _ _ Hsz' H) as Hp.
    rewrite Hp. apply firstn_splice_value; lia.
  - intros fuel k v ret Hk Hvalid Hret Hv Hfuel Hsz Hfin.
    apply (@resolve_alias_in_block_replaces is_valid_cmd size fuel k v
             Hk Hvalid Hv ret 0 Hret);
      [lia | lia | exact Hsz | exact Hfin].
  - intros fuel k v Hk Hvalid Hsz. now apply resolve_alias_in_block_key.
  - intros fuel k v ret str Hk Hfuel. now apply resolve_alias_in_block_ends.
  - intros Hvalid fuel.
    assert (E : resolve_alias_in_block is_valid_cmd 12 (S (S fuel))
                  (cstr "ls") (cstr "ls --color") (cstr "ls") 0
                = Done (cstr "ls --color", [(0, true)])).
    { apply resolve_alias_in_block_key.
      - discriminate.
      - simpl. exact Hvalid.
      - vm_compute. discriminate. }
    change (resolvealiases_in_block is_valid_cmd true (S (S fuel)) st_ls
              (cstr "ls"))
      with (r <- resolve_alias_in_block is_valid_cmd 12 (S (S fuel))
                   (cstr "ls") (cstr "ls --color") (cstr "ls") 0 ;;
            Done (fst r)).
    rewrite E. reflexivity.
Qed.

Lemma resolve_alias_in_block_never_rematches_ls :
  resolve_alias_in_block always_valid 24 3 (cstr "ls") (cstr "ls --color")
    (cstr "ls | ls") 0
  = Done (cstr "ls --color | ls --color", [(0, true); (13, true)])
  /\ scan_moves_on 2 10 [(0, true); (13, true)]
  /\ (exists log',
         [(0, true); (13, true)] = (0 + 0, true) :: log'
         /\ resolve_alias_in_block always_valid 24 2 (cstr "ls")
              (cstr "ls --color")
              (firstn (0 + 0) (cstr "ls | ls") ++ cstr "ls --color"
               ++ skipn (0 + 0 + 2) (cstr "ls | ls"))
              (0 + 0 + 10)
            = Done (cstr "ls --color | ls --color", log'))
  /\ firstn (0 + 0 + 10 - 1) (cstr "ls --color | ls --color")
     = firstn (0 + 0 + 10 - 1)
         (firstn (0 + 0) (cstr "ls | ls") ++ cstr "ls --color")
  /\ replace_from 0 (cstr "ls") (cstr "ls --color") (cstr "ls | ls")
     = cstr "ls --color | ls --color"
  /\ (exists log,
         resolve_alias_in_block always_valid 24 8 (cstr "ls")
           (cstr "ls --color") (cstr "ls | ls") 0
         = Done (replace_from 0 (cstr "ls") (cstr "ls --color")
                   (cstr "ls | ls"), log))
  /\ resolve_alias_in_block always_valid 24 2 (cstr "ls") (cstr "ls --color")
       (cstr "ls") 0
     = Done (cstr "ls --color", [(0, true)])
  /\ resolve_alias_in_block always_valid 24 8 (cstr "ls") (cstr "ls --color")
       (cstr "ls | ls") 0
     <> Timeout
  /\ resolvealiases_in_block always_valid true 2 st_ls (cstr "ls")
     = Done (cstr "ls --color").
Proof.
  pose proof (resolve_alias_in_block_never_rematches always_valid 24)
    as (Hlog & Hnext & Hkeep & Hsweep & Hkey & Hends & Hls).
  assert (E : resolve_alias_in_block always_valid 24 3 (cstr "ls")
                (cstr "ls --color") (cstr "ls | ls") 0
              = Done (cstr "ls --color | ls --color",
                      [(0, true); (13, true)]))
    by reflexivity.
  split; [exact E|].
  split; [exact (proj1 (Hlog _ _ _ _ _ _ _ E))|].
  split.
  { apply (Hnext 2 (cstr "ls") (cstr "ls --color") (cstr "ls | ls") 0 0
             (cstr "ls --color | ls --color") [(0, true); (13, true)]).
    - reflexivity.
    - reflexivity.
    - exact E. }
  split.
  { apply (Hkeep 3 (cstr "ls") (cstr "ls --color") (cstr "ls | ls") 0 0
             (cstr "ls --color | ls --color") [(0, true); (13, true)]).
    - vm_compute. discriminate.
    - vm_compute. discriminate.
    - reflexivity.
    - reflexivity.
    - exact E. }
  split; [reflexivity|].
  split.
  { apply (Hsweep 8 (cstr "ls") (cstr "ls --color") (cstr "ls | ls")).
    - discriminate.
    - intros context i. reflexivity.
    - intros H. cbv in H. intuition discriminate.
    - intros H. cbv in H. intuition discriminate.
    - simpl. lia.
    - vm_compute. discriminate.
    - vm_compute. discriminate. }
  split.
  { apply Hkey; [discriminate | reflexivity | vm_compute; discriminate]. }
  split.
  { apply Hends; [discriminate | simpl; lia]. }
  apply Hls. reflexivity.
Defined.

(** C6 (defect of the code). The claim covers every key. For a key of more
    than 50 characters the first [alias] leaves a key block of 51 characters
    without terminator; the second [alias] of the same key reads that block
    as a string, in [strstr] and [strlen] of [resolvealiases] and in [strcmp]
    of [alias_exists], past its end. No second value is put in effect by a
    defined run of the code. For keys of at most 50 characters the claim
    holds ([alias_twice_fitting_key]). *)
Theorem alias_twice_long_key
  (is_valid_cmd : list byte -> list byte -> Z -> bool) (fuel : nat)
  (v2 : list byte) :
  alias is_valid_cmd true true true fuel initial long_key (cstr "one")
  = Done (st_long_key, EXIT_SUCCESS)
  /\ alias is_valid_cmd true true true fuel st_long_key long_key v2
     = Undefined
  /\ alias_exists st_long_key long_key = Undefined.
Proof. repeat split. Qed.

(** C7 (defect of the code). [resolvealiases] asks [malloc] for
    [strlen(s) + total_alias_val_length] bytes and copies [s] into them
    with [strcpy], which writes [strlen(s) + 1] bytes. While the counter is
    0 the terminator of the copy lies behind the block, for every key and
    every value, and [alias] stores that block as the value of the entry.
    For a value of 24 characters the block has 24 bytes and the string
    needs 25. When the byte behind the block is written again, the stored
    string is longer than the 24 characters [alias] has added to the
    counter; [unalias] measures the stored string anew and takes off more
    than was put on, so that the counter and the sum part. Where no write
    leaves the block, [alias] and [unalias] keep the counter equal to the
    sum. *)
Theorem alias_in_block_overruns_on_empty_table
  (is_valid_cmd : list byte -> list byte -> Z -> bool)
  (ret_ok new_ok key_ok : bool) (fuel : nat) (k v : list byte) :
  alias_in_block is_valid_cmd ret_ok new_ok key_ok fuel initial k v
  = Undefined
  /\ maxsize initial (repeat "v"%byte 24) = 24%Z
  /\ (Z.of_nat (List.length (repeat "v"%byte 24)) + 1 = 25)%Z.
Proof.
  split; [|repeat split].
  unfold alias_in_block, resolvealiases_in_block.
  destruct ret_ok; [|reflexivity].
  simpl (alloc true). cbv beta iota delta [bind].
  assert (E : (Z.of_nat (List.length v) + 1 <=? maxsize initial v)%Z = false).
  { apply Z.leb_gt. unfold maxsize. simpl (total_alias_val_length initial).
    pose proof (@wrap_int_le (Z.of_nat (List.length v) + 0)%Z ltac:(lia)).
    lia. }
  rewrite E. reflexivity.
Qed.

(** C8 (defect of the code). The claim has the second query return the key
    set whenever a define came between the two. For a key of more than 50
    characters [alias] leaves a key block of 51 characters without
    terminator (the defect of C6 and of the key part of C2); the define
    sets the flag, and the query that follows copies every key with
    [strclone], which reads that block as a string, past its end. For keys
    of at most 50 characters, stored whole, the claim holds. *)
Theorem get_all_alias_keys_after_long_key
  (is_valid_cmd : list byte -> list byte -> Z -> bool) (fuel : nat) :
  get_all_alias_keys true initial true = Done (initial, None)
  /\ alias is_valid_cmd true true true fuel initial long_key (cstr "one")
     = Done (st_long_key, EXIT_SUCCESS)
  /\ alias_key_changed st_long_key = true
  /\ get_all_alias_keys true st_long_key true = Undefined
  /\ get_all_alias_keys true st_long_key false = Undefined.
Proof. repeat split. Qed.

(** C9, as stated, fails: [unalias] compares with [strncmp] on
    [MAX_ALIAS_KEY_LENGTH] characters, so a key that no entry holds is found
    all the same when an entry agrees with it that far. With one entry under
    a key of 50 characters, the key of 51 characters that extends it is not
    in the table ([alias_exists] says so), and [unalias] of it succeeds and
    removes the entry. *)
Lemma unalias_finds_longer_key :
  alias never_valid true true true 0 initial (repeat "a"%byte 50) (cstr "one")
  = Done (st_key50, EXIT_SUCCESS)
  /\ keys_of st_key50 = [repeat "a"%byte 50]
  /\ alias_exists st_key50 (repeat "a"%byte 51) = Done false
  /\ unalias st_key50 (repeat "a"%byte 51)
     = ({| head := [];
           total_alias_val_length := 0;
           nb_aliases := 0;
           alias_key_changed := true;
           stderr := [] |}, EXIT_SUCCESS).
Proof. repeat split. Qed.

(** C9 (amended). When no entry of the table has a key that agrees with [k]
    on the [MAX_ALIAS_KEY_LENGTH] characters [strncmp] compares, [unalias k]
    answers EXIT_FAILURE, hands the message naming [k] to [printerr], and
    leaves the entries, both counters and the flag as they were. *)
Theorem unalias_no_such_alias (st : state) (k : list byte) :
  (forall a, In a (head st) ->
             firstn MAX_ALIAS_KEY_LENGTH (upto_nul (key a))
             <> firstn MAX_ALIAS_KEY_LENGTH k) ->
  unalias st k
  = ({| head := head st;
        total_alias_val_length := total_alias_val_length st;
        nb_aliases := nb_aliases st;
        alias_key_changed := alias_key_changed st;
        stderr := stderr st ++ [cstr "unalias: no such alias key: " ++ k] |},
     EXIT_FAILURE).
Proof. exact (unalias_not_found st k). Qed.

Lemma unalias_no_such_alias_ll :
  unalias st_ls (cstr "ll")
  = ({| head := head st_ls;
        total_alias_val_length := 10;
        nb_aliases := 1;
        alias_key_changed := true;
        stderr := [cstr "unalias: no such alias key: ll"] |},
     EXIT_FAILURE).
Proof.
  apply (unalias_no_such_alias st_ls (cstr "ll")).
  intros a [<-|[]]. vm_compute. discriminate.
Defined.

(** C10 (defect of the code). [alias] is documented to answer EXIT_FAILURE
    when something goes wrong, [malloc] for one, and checks none of its
    three allocations: when [malloc] gives NULL for the output buffer, for
    the new entry or for its key block, the next statement writes through
    the null pointer, and the call answers no status at all, whatever the
    validity predicate. Nor does a call whose allocations all succeed answer
    a status on every key and value: with the alias [~ -> /home/jo] in the
    table, the value [~ ~ ~ ~] is resolved in a block of 15 bytes, and the
    second substitution writes past it (the defect of C1). *)
Theorem alias_null_block_undefined
  (is_valid_cmd : list byte -> list byte -> Z -> bool) (fuel : nat) :
  alias is_valid_cmd false true true fuel initial (cstr "ll") (cstr "ls -l")
  = Undefined
  /\ alias is_valid_cmd true false true fuel initial (cstr "ll")
       (cstr "ls -l") = Undefined
  /\ alias is_valid_cmd true true false fuel initial (cstr "ll")
       (cstr "ls -l") = Undefined
  /\ maxsize st_tilde (cstr "~ ~ ~ ~") = 15%Z
  /\ alias_in_block is_valid_cmd true true true (2 + fuel) st_tilde
       (cstr "h") (cstr "~ ~ ~ ~") = Undefined.
Proof. repeat split. Qed.

(** ** Further properties of the table *)

(** The walk of [unalias]: the entry it unlinks is the first that matches,
    and the others keep their order. *)
Lemma unlink_split (cur rest : list struct_alias) (k : list byte)
  (found : struct_alias) :
  unlink cur k = Some (found, rest) ->
  exists l1 l2,
    cur = l1 ++ found :: l2
    /\ rest = l1 ++ l2
    /\ matches k found = true
    /\ forallb (fun a => negb (matches k a)) l1 = true.
Proof.
  revert rest; induction cur as [|a next IH]; intros rest; simpl;
    [discriminate|].
  destruct (strncmp_eq (key a) k MAX_ALIAS_KEY_LENGTH) eqn:E.
  - intros [= <- <-]. exists [], next. repeat split. exact E.
  - destruct (unlink next k) as [[f r]|]; [|discriminate].
    intros [= <- <-].
    destruct (IH r eq_refl) as (l1 & l2 & -> & -> & Hm & Hl1).
    exists (a :: l1), l2. repeat split; try assumption.
    simpl. unfold matches at 1. now rewrite E.
Qed.

Lemma unlink_none_inv (cur : list struct_alias) (k : list byte) :
  unlink cur k = None ->
  forallb (fun a => negb (matches k a)) cur = true.
Proof.
  induction cur as [|a next IH]; simpl; [reflexivity|].
  unfold matches at 1.
  destruct (strncmp_eq (key a) k MAX_ALIAS_KEY_LENGTH); [discriminate|].
  destruct (unlink next k) as [[f r]|]; [discriminate|].
  intros _. now apply IH.
Qed.


Lemma matches_fits (k : list byte) (a : struct_alias) :
  key_fits a = true ->
  List.length k <= MAX_ALIAS_KEY_LENGTH ->
  matches k a = has_key k a.
Proof.
  unfold key_fits, matches, has_key. rewrite andb_true_iff.
  intros [_ Ha] Hk. apply Nat.leb_le in Ha.
  now apply strncmp_eq_fits.
Qed.

Lemma has_key_other (k k' : list byte) (a : struct_alias) :
  has_key k a = true -> k <> k' -> has_key k' a = false.
Proof.
  unfold has_key. intros H Hne. apply bytes_eqb_true in H.
  apply bytes_eqb_false. congruence.
Qed.

Lemma existsb_has_key_unlink (cur : list struct_alias) (k : list byte) :
  forallb key_fits cur = true ->
  List.length k <= MAX_ALIAS_KEY_LENGTH ->
  existsb (has_key k) cur
  = match unlink cur k with
    | Some _ => true
    | None => false
    end.
Proof.
  intros Hcur Hk. pose proof (@unlink_fits cur k Hcur Hk) as H.
  destruct (unlink cur k) as [[found rest]|].
  - destruct (existsb (has_key k) cur) eqn:E; [reflexivity|].
    apply existsb_false_filter in E. rewrite E in H. discriminate.
  - now apply filter_nil_existsb.
Qed.

(** X1. A call of [unalias] that answers EXIT_SUCCESS has unlinked exactly
    one entry, the first in list order whose key agrees with the argument on
    [MAX_ALIAS_KEY_LENGTH] characters: the entries before and behind it keep
    their order, [nb_aliases] goes down by one and
    [total_alias_val_length] by the measured length of the removed value,
    the flag is set and nothing is written to stderr. *)
Theorem unalias_removes_first_match (st : state) (k : list byte) :
  snd (unalias st k) = EXIT_SUCCESS ->
  exists l1 a l2,
    head st = l1 ++ a :: l2
    /\ matches k a = true
    /\ forallb (fun b => negb (matches k b)) l1 = true
    /\ fst (unalias st k)
       = {| head := l1 ++ l2;
            total_alias_val_length :=
              wrap_int (total_alias_val_length st
                        - Z.of_nat (strnlen (value a) MAX_ALIAS_VAL_LENGTH));
            nb_aliases := wrap_int (nb_aliases st - 1);
            alias_key_changed := true;
            stderr := stderr st |}.
Proof.
  unfold unalias.
  destruct (unlink (head st) k) as [[found rest]|] eqn:E; simpl;
    [|discriminate].
  intros _. destruct (unlink_split _ _ E) as (l1 & l2 & H1 & -> & Hm & Hl1).
  exists l1, found, l2. repeat split; assumption.
Qed.

Lemma unalias_removes_first_match_ll :
  snd (unalias st_ls_ll (cstr "ll")) = EXIT_SUCCESS
  /\ exists l1 a l2,
      head st_ls_ll = l1 ++ a :: l2
      /\ matches (cstr "ll") a = true
      /\ forallb (fun b => negb (matches (cstr "ll") b)) l1 = true
      /\ fst (unalias st_ls_ll (cstr "ll"))
         = {| head := l1 ++ l2;
              total_alias_val_length :=
                wrap_int (total_alias_val_length st_ls_ll
                          - Z.of_nat (strnlen (value a)
                                        MAX_ALIAS_VAL_LENGTH));
              nb_aliases := wrap_int (nb_aliases st_ls_ll - 1);
              alias_key_changed := true;
              stderr := stderr st_ls_ll |}.
Proof.
  split; [reflexivity|].
  apply (unalias_removes_first_match st_ls_ll (cstr "ll")). reflexivity.
Defined.

(** X2. On a table whose keys are stored whole, and for a key of at most
    [MAX_ALIAS_KEY_LENGTH] characters, [alias_exists] (which compares with
    [strcmp]) and [unalias] (which compares with [strncmp]) agree:
    [alias_exists] answers true exactly when [unalias] of the same key
    would succeed. *)
Theorem alias_exists_iff_unalias_succeeds (st : state) (k : list byte) :
  forallb key_fits (head st) = true ->
  existsb is_nul k = false ->
  List.length k <= MAX_ALIAS_KEY_LENGTH ->
  alias_exists st k = Done (Z.eqb (snd (unalias st k)) EXIT_SUCCESS).
Proof.
  intros Hst Hnul Hk.
  rewrite (@alias_exists_fits st k Hst Hnul).
  rewrite (@existsb_has_key_unlink (head st) k Hst Hk).
  unfold unalias. destruct (unlink (head st) k) as [[found rest]|];
    reflexivity.
Qed.

Lemma alias_exists_iff_unalias_succeeds_ls :
  alias_exists st_ls_ll (cstr "ll") = Done true
  /\ snd (unalias st_ls_ll (cstr "ll")) = EXIT_SUCCESS
  /\ alias_exists st_ls_ll (cstr "l") = Done false
  /\ snd (unalias st_ls_ll (cstr "l")) = EXIT_FAILURE.
Proof.
  split; [|split; [reflexivity|split; [|reflexivity]]].
  - apply (@alias_exists_iff_unalias_succeeds st_ls_ll (cstr "ll"));
      [reflexivity | reflexivity | vm_compute; lia].
  - apply (@alias_exists_iff_unalias_succeeds st_ls_ll (cstr "l"));
      [reflexivity | reflexivity | vm_compute; lia].
Defined.

(** The table [alias] appends to, for a key of at most
    [MAX_ALIAS_KEY_LENGTH] characters on a table whose keys are stored
    whole: the old table, or the old table without the first entry under the
    key. Entries under other keys are all there, in their order. *)
Lemma alias_table_before_append (st : state) (k k' : list byte) :
  forallb key_fits (head st) = true ->
  existsb is_nul k = false ->
  List.length k <= MAX_ALIAS_KEY_LENGTH ->
  k <> k' ->
  let st1 := if existsb (has_key k) (head st)
             then fst (unalias st k) else st in
  filter (has_key k') (head st1) = filter (has_key k') (head st).
Proof.
  intros Hst Hnul Hk Hne. cbv zeta.
  destruct (existsb (has_key k) (head st)); [|reflexivity].
  unfold unalias.
  destruct (unlink (head st) k) as [[found rest]|] eqn:E; simpl;
    [|reflexivity].
  destruct (unlink_split _ _ E) as (l1 & l2 & H1 & -> & Hm & _).
  rewrite H1, !filter_app. simpl.
  assert (Hfound : key_fits found = true).
  { rewrite H1, forallb_app in Hst. simpl in Hst.
    apply andb_true_iff in Hst as [_ Hst].
    now apply andb_true_iff in Hst as [Hst _]. }
  rewrite (matches_fits _ _ Hfound Hk) in Hm.
  now rewrite (has_key_other _ Hm Hne).
Qed.

Lemma alias_other_key
  (is_valid_cmd : list byte -> list byte -> Z -> bool)
  (ret_ok new_ok key_ok : bool) (fuel : nat) (st st' : state)
  (k k' v : list byte) (rc : Z) :
  forallb key_fits (head st) = true ->
  existsb is_nul k = false ->
  List.length k <= MAX_ALIAS_KEY_LENGTH ->
  k <> k' ->
  alias is_valid_cmd ret_ok new_ok key_ok fuel st k v = Done (st', rc) ->
  filter (has_key k') (head st') = filter (has_key k') (head st)
  /\ forallb key_fits (head st') = true.
Proof.
  intros Hst Hnul Hk Hne H.
  apply alias_done in H
    as (val & found & _ & Hfound & _ & _ & _ & _ & Hhead & _).
  rewrite (@alias_exists_fits st k Hst Hnul) in Hfound.
  injection Hfound as <-.
  destruct (@new_entry_fits k val Hnul Hk) as (_ & Hhas & Hnew).
  rewrite Hhead, filter_app, forallb_app. simpl.
  rewrite (has_key_other _ Hhas Hne), Hnew, app_nil_r.
  split; [now apply alias_table_before_append|].
  rewrite andb_true_r.
  destruct (existsb (has_key k) (head st)); auto using unalias_forallb.
Qed.

(** X3. [alias] of a key leaves the entries under every other key as they
    were, in their order, so that [alias_exists] of another key answers as
    before (keys of at most [MAX_ALIAS_KEY_LENGTH] characters, on a table
    whose keys are stored whole). *)
Theorem alias_keeps_other_keys
  (is_valid_cmd : list byte -> list byte -> Z -> bool)
  (ret_ok new_ok key_ok : bool) (fuel : nat) (st st' : state)
  (k k' v : list byte) (rc : Z) :
  forallb key_fits (head st) = true ->
  existsb is_nul k = false ->
  List.length k <= MAX_ALIAS_KEY_LENGTH ->
  existsb is_nul k' = false ->
  k <> k' ->
  alias is_valid_cmd ret_ok new_ok key_ok fuel st k v = Done (st', rc) ->
  filter (has_key k') (head st') = filter (has_key k') (head st)
  /\ alias_exists st' k' = alias_exists st k'.
Proof.
  intros Hst Hnul Hk Hnul' Hne H.
  destruct (@alias_other_key _ _ _ _ _ _ _ _ k' _ _ Hst Hnul Hk Hne H)
    as [Hf Hfits].
  split; [exact Hf|].
  rewrite (@alias_exists_fits st' k' Hfits Hnul').
  rewrite (@alias_exists_fits st k' Hst Hnul').
  f_equal.
  destruct (existsb (has_key k') (head st)) eqn:E.
  - destruct (existsb (has_key k') (head st')) eqn:E'; [reflexivity|].
    apply existsb_false_filter in E'. rewrite Hf in E'.
    apply filter_nil_existsb in E'. congruence.
  - apply existsb_false_filter in E. rewrite <- Hf in E.
    now apply filter_nil_existsb.
Qed.

Lemma alias_keeps_other_keys_ls :
  alias never_valid true true true 2 (clear_changed st_ls) (cstr "ll")
    (cstr "ls -l") = Done (st_ls_ll, EXIT_SUCCESS)
  /\ filter (has_key (cstr "ls")) (head st_ls_ll)
     = filter (has_key (cstr "ls")) (head (clear_changed st_ls))
  /\ alias_exists st_ls_ll (cstr "ls")
     = alias_exists (clear_changed st_ls) (cstr "ls").
Proof.
  split; [reflexivity|].
  apply (@alias_keeps_other_keys never_valid true true true 2
           (clear_changed st_ls) st_ls_ll (cstr "ll") (cstr "ls")
           (cstr "ls -l") EXIT_SUCCESS);
    try reflexivity; [vm_compute; lia | discriminate].
Defined.

(** X4. Once [alias] of a key of at most [MAX_ALIAS_KEY_LENGTH] characters
    has returned, [alias_exists] of that key answers true (on a table whose
    keys are stored whole; the keys of the new table are stored whole
    again). *)
Theorem alias_then_alias_exists
  (is_valid_cmd : list byte -> list byte -> Z -> bool)
  (ret_ok new_ok key_ok : bool) (fuel : nat) (st st' : state)
  (k v : list byte) (rc : Z) :
  forallb key_fits (head st) = true ->
  existsb is_nul k = false ->
  List.length k <= MAX_ALIAS_KEY_LENGTH ->
  alias is_valid_cmd ret_ok new_ok key_ok fuel st k v = Done (st', rc) ->
  alias_exists st' k = Done true
  /\ forallb key_fits (head st') = true.
Proof.
  intros Hst Hnul Hk H.
  apply alias_done in H
    as (val & found & _ & _ & _ & _ & _ & _ & Hhead & _).
  destruct (@new_entry_fits k val Hnul Hk) as (_ & Hhas & Hnew).
  assert (Hfits : forallb key_fits (head st') = true).
  { rewrite Hhead, forallb_app. simpl. rewrite Hnew, andb_true_r.
    destruct found; auto using unalias_forallb. }
  split; [|exact Hfits].
  rewrite (@alias_exists_fits st' k Hfits Hnul).
  rewrite Hhead, existsb_app. simpl. rewrite Hhas.
  now rewrite orb_true_r.
Qed.

Lemma alias_then_alias_exists_ll :
  alias never_valid true true true 2 (clear_changed st_ls) (cstr "ll")
    (cstr "ls -l") = Done (st_ls_ll, EXIT_SUCCESS)
  /\ alias_exists (clear_changed st_ls) (cstr "ll") = Done false
  /\ alias_exists st_ls_ll (cstr "ll") = Done true
  /\ forallb key_fits (head st_ls_ll) = true.
Proof.
  split; [reflexivity|]. split; [reflexivity|].
  apply (@alias_then_alias_exists never_valid true true true 2
           (clear_changed st_ls) st_ls_ll (cstr "ll") (cstr "ls -l")
           EXIT_SUCCESS);
    try reflexivity. vm_compute; lia.
Defined.



(** X21. Where no write of [alias] leaves the block of [resolvealiases],
    [alias] and [unalias] keep [total_alias_val_length] equal to the sum
    over the entries of [strnlen(value, MAX_ALIAS_VAL_LENGTH)], taken in the
    32 bits of an [int]: from a table on which the two agree, every
    [unalias] and every such [alias] leads to a table on which they
    agree. *)
Theorem total_alias_val_length_kept_in_block
  (is_valid_cmd : list byte -> list byte -> Z -> bool) (st : state) :
  total_alias_val_length st = wrap_int (sum_val_lengths (head st)) ->
  (forall k,
      total_alias_val_length (fst (unalias st k))
      = wrap_int (sum_val_lengths (head (fst (unalias st k)))))
  /\ (forall ret_ok new_ok key_ok fuel k v st' rc,
         alias_in_block is_valid_cmd ret_ok new_ok key_ok fuel st k v
         = Done (st', rc) ->
         total_alias_val_length st'
         = wrap_int (sum_val_lengths (head st'))).
Proof.
  intros Hinv. split.
  - intros k. now apply counter_inv_unalias.
  - intros ret_ok new_ok key_ok fuel k v st' rc H.
    apply alias_in_block_text in H.
    exact (counter_inv_alias _ _ _ _ _ _ _ Hinv H).
Qed.

Lemma total_alias_val_length_kept_in_block_ls :
  total_alias_val_length st_ls = wrap_int (sum_val_lengths (head st_ls))
  /\ total_alias_val_length (fst (unalias st_ls (cstr "ls")))
     = wrap_int (sum_val_lengths (head (fst (unalias st_ls (cstr "ls")))))
  /\ alias_in_block always_valid true true true 2 st_ls (cstr "ll")
       (cstr "ls -l")
     = Done (table [entry "ls" "ls --color"; entry "ll" "ls --color -l"] 23,
             EXIT_SUCCESS)
  /\ total_alias_val_length
       (table [entry "ls" "ls --color"; entry "ll" "ls --color -l"] 23)
     = wrap_int
         (sum_val_lengths
            (head (table [entry "ls" "ls --color";
                          entry "ll" "ls --color -l"] 23))).
Proof.
  pose proof (@total_alias_val_length_kept_in_block always_valid st_ls
                eq_refl) as [Hun Hal].
  split; [reflexivity|].
  split; [exact (Hun (cstr "ls"))|].
  split; [reflexivity|].
  apply (Hal true true true 2 (cstr "ll") (cstr "ls -l")
           (table [entry "ls" "ls --color"; entry "ll" "ls --color -l"] 23)
           EXIT_SUCCESS).
  reflexivity.
Defined.

(** *** The entry counter *)

Lemma count_inv_unalias (st : state) (k : list byte) :
  count_inv st -> count_inv (fst (unalias st k)).
Proof.
  unfold count_inv, unalias. intros H.
  destruct (unlink (head st) k) as [[cur rest]|] eqn:E; simpl; [|exact H].
  rewrite H, wrap_int_sub_l. f_equal.
  rewrite (unlink_length _ _ E). lia.
Qed.

Lemma count_inv_alias
  (is_valid_cmd : list byte -> list byte -> Z -> bool)
  (ret_ok new_ok key_ok : bool) (fuel : nat)
  (st st' : state) (k v : list byte) (rc : Z) :
  count_inv st ->
  alias is_valid_cmd ret_ok new_ok key_ok fuel st k v = Done (st', rc) ->
  count_inv st'.
Proof.
  intros Hinv H. apply alias_done in H
    as (val & found & _ & _ & _ & _ & _ & _ & Hhead & _ & Hnb & _).
  unfold count_inv. rewrite Hnb, Hhead, length_app. simpl.
  assert (H1 : count_inv (if found then fst (unalias st k) else st))
    by (destruct found; auto using count_inv_unalias).
  rewrite H1, wrap_int_add_l. f_equal. lia.
Qed.

Lemma count_inv_run
  (is_valid_cmd : list byte -> list byte -> Z -> bool) (fuel : nat)
  (ops : list op) :
  forall st st',
    count_inv st ->
    run is_valid_cmd fuel st ops = Done st' ->
    count_inv st'.
Proof.
  induction ops as [|o ops IH]; intros st st' Hinv; simpl.
  - now intros [= <-].
  - intros H. bind_inv H. apply (IH a); [|exact H].
    destruct o as [ret_ok new_ok key_ok k v|k]; simpl in E.
    + bind_inv E. injection E as <-. destruct a0 as [st1 rc].
      eapply count_inv_alias; eassumption.
    + injection E as <-. now apply count_inv_unalias.
Qed.

Lemma clone_keys_length (cur : list struct_alias) (ks : list (list byte)) :
  clone_keys cur = Done ks -> List.length ks = List.length cur.
Proof.
  revert ks; induction cur as [|a next IH]; intros ks; simpl.
  - now intros [= <-].
  - destruct (c_str (key a)); [|discriminate].
    intros H. bind_inv H. injection H as <-. simpl. now rewrite (IH a0).
Qed.

(** X6. After every sequence of [alias] and [unalias] calls that has run,
    [nb_aliases] is the number of entries in the list, taken in the 32 bits
    of an [int]: it is that number itself as long as the number fits. *)
Theorem nb_aliases_is_length
  (is_valid_cmd : list byte -> list byte -> Z -> bool) (fuel : nat)
  (ops : list op) (st : state) :
  run is_valid_cmd fuel initial ops = Done st ->
  nb_aliases st = wrap_int (Z.of_nat (List.length (head st)))
  /\ ((Z.of_nat (List.length (head st)) <= INT_MAX)%Z ->
      nb_aliases st = Z.of_nat (List.length (head st))).
Proof.
  intros Hrun.
  assert (Hinv : count_inv st)
    by (eapply count_inv_run; [|exact Hrun]; reflexivity).
  split; [exact Hinv|].
  intros Hmax. rewrite Hinv. apply wrap_int_small. lia.
Qed.

Lemma nb_aliases_is_length_run :
  run never_valid 5 initial some_ops = Done st_some_ops
  /\ (Z.of_nat (List.length (head st_some_ops)) <= INT_MAX)%Z
  /\ nb_aliases st_some_ops = Z.of_nat (List.length (head st_some_ops)).
Proof.
  split; [reflexivity|].
  split; [vm_compute; discriminate|].
  apply (@nb_aliases_is_length never_valid 5 some_ops st_some_ops).
  - reflexivity.
  - vm_compute. discriminate.
Defined.

(** X7. In every state a sequence of [alias] and [unalias] calls has led
    to (with a number of entries that fits an [int]), the count
    [get_all_alias_keys] stores through [nb_keys] is the number of keys in
    the array it returns, one for each entry of the list. *)
Theorem get_all_alias_keys_count
  (is_valid_cmd : list byte -> list byte -> Z -> bool) (fuel : nat)
  (ops : list op) (st st' : state) (ret_ok only_on_change : bool)
  (ks : list (list byte)) (n : Z) :
  run is_valid_cmd fuel initial ops = Done st ->
  (Z.of_nat (List.length (head st)) <= INT_MAX)%Z ->
  get_all_alias_keys ret_ok st only_on_change = Done (st', Some (ks, n)) ->
  n = Z.of_nat (List.length ks)
  /\ List.length ks = List.length (head st).
Proof.
  intros Hrun Hmax Hq.
  assert (Hinv : count_inv st)
    by (eapply count_inv_run; [|exact Hrun]; reflexivity).
  unfold get_all_alias_keys in Hq.
  destruct (only_on_change && negb (alias_key_changed st));
    [discriminate|].
  destruct ret_ok.
  - bind_inv Hq. injection Hq as _ <- <-.
    rewrite (clone_keys_length _ E). split; [|reflexivity].
    rewrite Hinv, wrap_int_small by lia.
    apply Z.mod_small. unfold INT_MAX in Hmax. lia.
  - destruct (head st); discriminate.
Qed.

Lemma get_all_alias_keys_count_run :
  run never_valid 5 initial some_ops = Done st_some_ops
  /\ (Z.of_nat (List.length (head st_some_ops)) <= INT_MAX)%Z
  /\ get_all_alias_keys true st_some_ops true
     = Done (clear_changed st_some_ops, Some ([cstr "ls"], 1%Z))
  /\ 1%Z = Z.of_nat (List.length [cstr "ls"])
  /\ List.length [cstr "ls"] = List.length (head st_some_ops).
Proof.
  split; [reflexivity|].
  split; [vm_compute; discriminate|].
  split; [reflexivity|].
  apply (@get_all_alias_keys_count never_valid 5 some_ops st_some_ops
           (clear_changed st_some_ops) true true [cstr "ls"] 1%Z).
  - reflexivity.
  - vm_compute. discriminate.
  - reflexivity.
Defined.

(** *** Keys stay unique *)

Lemma filter_length_remove (P : struct_alias -> bool)
  (l1 l2 : list struct_alias) (a : struct_alias) :
  List.length (filter P (l1 ++ l2))
  <= List.length (filter P (l1 ++ a :: l2)).
Proof.
  rewrite !filter_app, !length_app. simpl.
  destruct (P a); simpl; lia.
Qed.

Lemma unique_inv_initial : unique_inv initial.
Proof. split; [reflexivity | intros k; simpl; lia]. Qed.

Lemma unique_inv_unalias (st : state) (k : list byte) :
  unique_inv st -> unique_inv (fst (unalias st k)).
Proof.
  intros [Hfits Huniq]. split; [now apply unalias_forallb|].
  intros k'. specialize (Huniq k'). unfold unalias.
  destruct (unlink (head st) k) as [[found rest]|] eqn:E; simpl;
    [|exact Huniq].
  destruct (unlink_split _ _ E) as (l1 & l2 & H1 & -> & _).
  rewrite H1 in Huniq.
  pose proof (filter_length_remove (has_key k') l1 l2 found). lia.
Qed.

Lemma unique_inv_alias
  (is_valid_cmd : list byte -> list byte -> Z -> bool)
  (ret_ok new_ok key_ok : bool) (fuel : nat)
  (st st' : state) (k v : list byte) (rc : Z) :
  unique_inv st ->
  existsb is_nul k = false ->
  List.length k <= MAX_ALIAS_KEY_LENGTH ->
  alias is_valid_cmd ret_ok new_ok key_ok fuel st k v = Done (st', rc) ->
  unique_inv st'.
Proof.
  intros [Hfits Huniq] Hnul Hk H.
  destruct (@alias_fits_once _ _ _ _ _ _ _ _ _ _ Hfits Hnul Hk (Huniq k) H)
    as (val & _ & Hone & Hfits' & _).
  split; [exact Hfits'|].
  intros k'. destruct (bytes_eqb k k') eqn:E.
  - apply bytes_eqb_true in E. subst k'. rewrite Hone. simpl. lia.
  - apply bytes_eqb_false in E.
    destruct (@alias_other_key _ _ _ _ _ _ _ _ k' _ _ Hfits Hnul Hk E H)
      as [-> _].
    apply Huniq.
Qed.

Lemma unique_inv_run
  (is_valid_cmd : list byte -> list byte -> Z -> bool) (fuel : nat)
  (ops : list op) :
  forallb op_fits ops = true ->
  forall st st',
    unique_inv st ->
    run is_valid_cmd fuel st ops = Done st' ->
    unique_inv st'.
Proof.
  induction ops as [|o ops IH]; intros Hops st st' Hinv; simpl.
  - now intros [= <-].
  - simpl in Hops. apply andb_true_iff in Hops as [Ho Hops].
    intros H. bind_inv H. apply (IH Hops a); [|exact H].
    destruct o as [ret_ok new_ok key_ok k v|k]; simpl in E.
    + bind_inv E. injection E as <-. destruct a0 as [st1 rc].
      simpl in Ho. apply andb_true_iff in Ho as [Hnul Hk].
      apply negb_true_iff in Hnul. apply Nat.leb_le in Hk.
      eapply unique_inv_alias; eassumption.
    + injection E as <-. now apply unique_inv_unalias.
Qed.

Lemma filter_has_key_NoDup (l : list struct_alias) :
  (forall k, List.length (filter (has_key k) l) <= 1) ->
  NoDup (map (fun a => upto_nul (key a)) l).
Proof.
  induction l as [|a l IH]; intros H; simpl; constructor.
  - intros Hin. apply in_map_iff in Hin as (b & Hb & Hbl).
    specialize (H (upto_nul (key a))). simpl in H.
    unfold has_key at 1 in H. rewrite bytes_eqb_refl in H. simpl in H.
    assert (Hbf : In b (filter (has_key (upto_nul (key a))) l)).
    { apply filter_In. split; [exact Hbl|].
      unfold has_key. rewrite Hb. apply bytes_eqb_refl. }
    destruct (filter (has_key (upto_nul (key a))) l);
      [contradiction | simpl in H; lia].
  - apply IH. intros k. specialize (H k). simpl in H.
    destruct (has_key k a); simpl in H; lia.
Qed.

(** X8. As long as every key given to [alias] is stored whole (at most
    [MAX_ALIAS_KEY_LENGTH] characters), every sequence of [alias] and
    [unalias] calls that has run leaves a table in which no two entries have
    the same key, each key a terminated string of at most
    [MAX_ALIAS_KEY_LENGTH] characters. *)
Theorem keys_stay_unique
  (is_valid_cmd : list byte -> list byte -> Z -> bool) (fuel : nat)
  (ops : list op) (st : state) :
  forallb op_fits ops = true ->
  run is_valid_cmd fuel initial ops = Done st ->
  NoDup (keys_of st) /\ forallb key_fits (head st) = true.
Proof.
  intros Hops Hrun.
  destruct (@unique_inv_run is_valid_cmd fuel ops Hops initial st
              unique_inv_initial Hrun) as [Hfits Huniq].
  split; [now apply filter_has_key_NoDup | exact Hfits].
Qed.

Lemma keys_stay_unique_run :
  forallb op_fits some_ops = true
  /\ run never_valid 5 initial some_ops = Done st_some_ops
  /\ NoDup (keys_of st_some_ops)
  /\ forallb key_fits (head st_some_ops) = true.
Proof.
  split; [reflexivity|]. split; [reflexivity|].
  apply (@keys_stay_unique never_valid 5 some_ops st_some_ops);
    reflexivity.
Defined.

(** ** Further properties of the engine *)

(** X9. The loops of [resolvealiases] end: when every key of the table is
    a terminated, non-empty string, within [maxsize] rounds of each pass the
    call has returned or a write has left the block, on every input and for
    every validity predicate and allocation outcome. *)
Theorem resolvealiases_in_block_ends
  (is_valid_cmd : list byte -> list byte -> Z -> bool) (ret_ok : bool)
  (fuel : nat) (st : state) (s : list byte) :
  forallb proper_key (head st) = true ->
  Z.to_nat (maxsize st s) <= fuel ->
  resolvealiases_in_block is_valid_cmd ret_ok fuel st s <> Timeout.
Proof.
  intros Hok Hfuel. unfold resolvealiases_in_block.
  destruct ret_ok; simpl; [|discriminate].
  destruct (Z.of_nat (List.length s) + 1 <=? maxsize st s)%Z eqn:Esz;
    [|discriminate].
  apply Z.leb_le in Esz.
  now apply resolve_from_in_block_ends.
Qed.

Lemma resolvealiases_in_block_ends_ls :
  forallb proper_key (head st_ls_ll) = true
  /\ Z.to_nat (maxsize st_ls_ll (cstr "ll | ls")) <= 22
  /\ resolvealiases_in_block always_valid true 22 st_ls_ll (cstr "ll | ls")
     = Done (cstr "ls -l | ls --color")
  /\ resolvealiases_in_block always_valid true 22 st_ls_ll (cstr "ll | ls")
     <> Timeout.
Proof.
  split; [reflexivity|].
  split; [vm_compute; lia|].
  split; [reflexivity|].
  apply (@resolvealiases_in_block_ends always_valid true 22 st_ls_ll
           (cstr "ll | ls")); [reflexivity | vm_compute; lia].
Defined.

(** X10. When the table holds an entry under the empty key,
    [resolvealiases] never returns, whatever the input, the validity
    predicate, the allocation outcome and the number of rounds: [strstr]
    finds the empty key at the scan position in every round. [alias] calls
    [resolvealiases] first and so never returns either. *)
Theorem resolvealiases_empty_key_never_returns
  (is_valid_cmd : list byte -> list byte -> Z -> bool) (st : state) :
  existsb empty_key (head st) = true ->
  (forall ret_ok fuel s r,
      resolvealiases is_valid_cmd ret_ok fuel st s <> Done r)
  /\ (forall ret_ok fuel s r,
         resolvealiases_in_block is_valid_cmd ret_ok fuel st s <> Done r)
  /\ (forall ret_ok new_ok key_ok fuel k v st' rc,
         alias is_valid_cmd ret_ok new_ok key_ok fuel st k v
         <> Done (st', rc))
  /\ (forall ret_ok new_ok key_ok fuel k v st' rc,
         alias_in_block is_valid_cmd ret_ok new_ok key_ok fuel st k v
         <> Done (st', rc)).
Proof.
  intros Hempty.
  assert (H : forall ret_ok fuel s r,
             resolvealiases is_valid_cmd ret_ok fuel st s <> Done r).
  { intros ret_ok fuel s r. unfold resolvealiases.
    destruct ret_ok; simpl; [|discriminate].
    now apply resolve_from_empty_key. }
  split; [exact H|]. split; [|split].
  - intros ret_ok fuel s r Hr.
    apply resolvealiases_in_block_text in Hr. exact (H _ _ _ _ Hr).
  - intros ret_ok new_ok key_ok fuel k v st' rc Ha.
    apply alias_done in Ha as (val & _ & Hr & _). exact (H _ _ _ _ Hr).
  - intros ret_ok new_ok key_ok fuel k v st' rc Ha.
    apply alias_in_block_text in Ha.
    apply alias_done in Ha as (val & _ & Hr & _). exact (H _ _ _ _ Hr).
Qed.

Lemma resolvealiases_empty_key_never_returns_x :
  existsb empty_key (head (table [entry "" "x"] 1)) = true
  /\ (forall ret_ok fuel s r,
         resolvealiases never_valid ret_ok fuel (table [entry "" "x"] 1) s
         <> Done r)
  /\ (forall ret_ok fuel s r,
         resolvealiases_in_block never_valid ret_ok fuel
           (table [entry "" "x"] 1) s <> Done r)
  /\ (forall ret_ok new_ok key_ok fuel k v st' rc,
         alias never_valid ret_ok new_ok key_ok fuel
           (table [entry "" "x"] 1) k v <> Done (st', rc))
  /\ (forall ret_ok new_ok key_ok fuel k v st' rc,
         alias_in_block never_valid ret_ok new_ok key_ok fuel
           (table [entry "" "x"] 1) k v <> Done (st', rc)).
Proof.
  split; [reflexivity|].
  apply (@resolvealiases_empty_key_never_returns never_valid
           (table [entry "" "x"] 1)); reflexivity.
Defined.

(** One pass writes at most one value for each character it has yet to
    scan. *)
Lemma resolve_alias_length
  (is_valid_cmd : list byte -> list byte -> Z -> bool) (fuel : nat)
  (k v : list byte) :
  forall ret str r,
    resolve_alias is_valid_cmd fuel k v ret str = Done r ->
    List.length r
    <= List.length ret + (List.length ret - str) * List.length v.
Proof.
  destruct k as [|c k].
  { intros ret str r H. now rewrite resolve_alias_empty_key in H. }
  induction fuel as [|fuel IH]; intros ret str r; [discriminate|].
  rewrite resolve_alias_round.
  destruct (strstr (skipn str ret) (c :: k)) as [j|] eqn:Es.
  - apply strstr_bound in Es. rewrite length_skipn in Es. simpl in Es.
    cbv zeta.
    destruct (is_valid_alias_cases is_valid_cmd (c :: k) ret
                (wrap_int (Z.of_nat (str + j)))) as [(n & Hn & E)|E].
    + rewrite E. intros H. apply IH in H.
      apply nth_backslash_in_range in Hn.
      rewrite remove_at_length in H by assumption. simpl in H. nia.
    + destruct (is_valid_alias is_valid_cmd (c :: k) ret
                  (wrap_int (Z.of_nat (str + j)))) as [ret' valid];
        simpl in E; subst ret'.
      destruct valid; intros H; apply IH in H.
      * rewrite splice_length in H by (simpl; lia). simpl in H. nia.
      * simpl in H. nia.
  - intros [= <-]. lia.
Qed.

Lemma growth_mono (cur : list struct_alias) (n m : nat) :
  n <= m -> growth cur n <= growth cur m.
Proof.
  revert n m; induction cur as [|a next IH]; intros n m H; simpl;
    [exact H|].
  apply IH. nia.
Qed.

(** X11. Whatever [resolvealiases] returns is no longer than [growth]
    allows: starting from [strlen(s)], the bound is multiplied by
    [1 + strlen(value)] for each entry of the table in turn. A buffer of
    that size (and the terminator) holds every output; the sum the code
    allocates does not. *)
Theorem resolvealiases_length_bound
  (is_valid_cmd : list byte -> list byte -> Z -> bool) (ret_ok : bool)
  (fuel : nat) (st : state) (s r : list byte) :
  resolvealiases is_valid_cmd ret_ok fuel st s = Done r ->
  List.length r <= growth (head st) (List.length s).
Proof.
  unfold resolvealiases. destruct ret_ok; [simpl|discriminate].
  generalize (head st) as cur. intros cur. revert s.
  induction cur as [|a next IH]; intros s; simpl.
  - intros [= <-]. lia.
  - destruct (c_str (key a)) as [k|]; [|discriminate].
    destruct (resolve_alias is_valid_cmd fuel k (value a) s 0) as [r1| |]
      eqn:E; simpl; try discriminate.
    intros H. apply IH in H. apply resolve_alias_length in E.
    etransitivity; [exact H|]. apply growth_mono. nia.
Qed.

Lemma resolvealiases_length_bound_tilde :
  resolvealiases never_valid true 3 st_tilde (cstr "~ ~")
  = Done (cstr "/home/jo /home/jo")
  /\ List.length (cstr "/home/jo /home/jo")
     <= growth (head st_tilde) (List.length (cstr "~ ~")).
Proof.
  split; [reflexivity|].
  apply (@resolvealiases_length_bound never_valid true 3 st_tilde
           (cstr "~ ~") (cstr "/home/jo /home/jo")).
  reflexivity.
Defined.




Lemma resolve_alias_tilde
  (p1 p2 : list byte -> list byte -> Z -> bool) (fuel : nat)
  (k v : list byte) :
  Byte.eqb (hd NUL k) tilde = true ->
  forall ret str,
    resolve_alias p1 fuel k v ret str = resolve_alias p2 fuel k v ret str.
Proof.
  intros Hk. induction fuel as [|fuel IH]; intros ret str; [reflexivity|].
  rewrite !resolve_alias_round.
  destruct (strstr (skipn str ret) k) as [j|]; [|reflexivity].
  cbv zeta. unfold is_valid_alias. rewrite Hk.
  destruct ((0 <? wrap_int (Z.of_nat (str + j)))%Z
            && Byte.eqb (char_at ret (wrap_int (Z.of_nat (str + j)) - 1))
                 backslash); apply IH.
Qed.

(** X13. A table all of whose keys begin with [~] is resolved without the
    grammar check having a say: [resolvealiases] gives the same result for
    any two validity predicates. *)
Theorem resolvealiases_tilde_keys
  (p1 p2 : list byte -> list byte -> Z -> bool) (ret_ok : bool)
  (fuel : nat) (st : state) (s : list byte) :
  forallb tilde_key (head st) = true ->
  resolvealiases p1 ret_ok fuel st s = resolvealiases p2 ret_ok fuel st s.
Proof.
  intros H. unfold resolvealiases. destruct ret_ok; [simpl|reflexivity].
  revert H s. generalize (head st) as cur.
  induction cur as [|a next IH]; intros H s; simpl; [reflexivity|].
  simpl in H. apply andb_true_iff in H as [Ha Hnext].
  unfold tilde_key in Ha.
  destruct (c_str (key a)) as [[|c k]|]; try discriminate.
  rewrite (@resolve_alias_tilde p1 p2 fuel (c :: k) (value a) Ha s 0).
  destruct (resolve_alias p2 fuel (c :: k) (value a) s 0); simpl;
    auto.
Qed.

Lemma resolvealiases_tilde_keys_home :
  forallb tilde_key (head st_tilde) = true
  /\ resolvealiases never_valid true 3 st_tilde (cstr "cd ~/src")
     = resolvealiases always_valid true 3 st_tilde (cstr "cd ~/src")
  /\ resolvealiases never_valid true 3 st_tilde (cstr "cd ~/src")
     = Done (cstr "cd /home/jo/src").
Proof.
  split; [reflexivity|]. split; [|reflexivity].
  apply (@resolvealiases_tilde_keys never_valid always_valid true 3
           st_tilde (cstr "cd ~/src")).
  reflexivity.
Defined.

(** ** Further properties of the queries *)

(** X14. [get_all_alias_keys] touches nothing but the flag: the entries,
    both counters and stderr are as before. Called without
    [only_on_change] it clears the flag all the same, so that a query with
    [only_on_change] right after answers NULL although the change was never
    reported to such a query. *)
Theorem get_all_alias_keys_only_flag (ret_ok only_on_change : bool)
  (st st' : state) (r : option (list (list byte) * Z)) :
  get_all_alias_keys ret_ok st only_on_change = Done (st', r) ->
  head st' = head st
  /\ total_alias_val_length st' = total_alias_val_length st
  /\ nb_aliases st' = nb_aliases st
  /\ stderr st' = stderr st
  /\ (only_on_change = false ->
      alias_key_changed st' = false
      /\ forall ret_ok',
          get_all_alias_keys ret_ok' st' true = Done (st', None)).
Proof.
  intros H.
  assert (Hs : st' = st \/ st' = clear_changed st).
  { revert H. unfold get_all_alias_keys.
    destruct (only_on_change && negb (alias_key_changed st)).
    - intros [= <- <-]. now left.
    - destruct ret_ok.
      + intros H. bind_inv H. injection H as <- <-. now right.
      + destruct (head st); [|discriminate]. intros [= <- <-]. now right. }
  repeat split; try (destruct Hs as [-> | ->]; reflexivity).
  - subst only_on_change. revert H. unfold get_all_alias_keys. simpl.
    destruct ret_ok.
    + intros H. bind_inv H. now injection H as <- <-.
    + destruct (head st); [|discriminate]. now intros [= <- <-].
  - subst only_on_change. intros ret_ok'.
    apply get_all_alias_keys_unchanged.
    revert H. unfold get_all_alias_keys. simpl.
    destruct ret_ok.
    + intros H. bind_inv H. now injection H as <- <-.
    + destruct (head st); [|discriminate]. now intros [= <- <-].
Qed.

Lemma get_all_alias_keys_only_flag_ls :
  get_all_alias_keys true st_ls false
  = Done (clear_changed st_ls, Some ([cstr "ls"], 1%Z))
  /\ head (clear_changed st_ls) = head st_ls
  /\ alias_key_changed st_ls = true
  /\ get_all_alias_keys true (clear_changed st_ls) true
     = Done (clear_changed st_ls, None).
Proof.
  split; [reflexivity|].
  destruct (@get_all_alias_keys_only_flag true false st_ls
              (clear_changed st_ls) (Some ([cstr "ls"], 1%Z)) eq_refl)
    as (Hhead & _ & _ & _ & Hflag).
  split; [exact Hhead|]. split; [reflexivity|].
  apply (proj2 (Hflag eq_refl)).
Defined.

Lemma print_from_app (l1 l2 : list struct_alias) :
  print_from (l1 ++ l2)
  = (out1 <- print_from l1 ;;
     out2 <- print_from l2 ;; Done (out1 ++ out2)).
Proof.
  induction l1 as [|a l1 IH]; simpl.
  - destruct (print_from l2); reflexivity.
  - destruct (c_str (key a)); [|reflexivity].
    rewrite IH. destruct (print_from l1); simpl; try reflexivity.
    destruct (print_from l2); simpl; try reflexivity.
    now rewrite app_assoc.
Qed.

Lemma print_from_terminated (cur : list struct_alias) :
  forallb terminated_key cur = true -> exists out, print_from cur = Done out.
Proof.
  induction cur as [|a next IH]; simpl; [eauto|].
  rewrite andb_true_iff. intros [Ha Hnext].
  unfold c_str. unfold terminated_key in Ha. rewrite Ha.
  destruct (IH Hnext) as [out ->]. simpl. eauto.
Qed.

Lemma forallb_fits_terminated (cur : list struct_alias) :
  forallb key_fits cur = true -> forallb terminated_key cur = true.
Proof.
  rewrite !forallb_forall. intros H a Ha. specialize (H a Ha).
  unfold key_fits in H. now apply andb_true_iff in H as [H _].
Qed.

Lemma print_new_entry (k val : list byte) :
  existsb is_nul k = false ->
  List.length k <= MAX_ALIAS_KEY_LENGTH ->
  print_from [{| key := strncpy k (strnlen k MAX_ALIAS_KEY_LENGTH + 1);
                 value := val |}]
  = Done (alias_line k val).
Proof.
  intros Hnul Hk. simpl. rewrite strncpy_short_key by assumption.
  unfold c_str. rewrite existsb_is_nul_app. simpl. rewrite orb_true_r.
  rewrite upto_nul_no_nul by assumption. simpl. now rewrite app_nil_r.
Qed.



(** X16. [alias] of a key the table holds, no write of it leaving the
    block of [resolvealiases], moves the key to the end of the listing: the
    lines of the other entries stay in their order, the line of the old
    entry is gone, and the line of the new entry comes last and shows the
    value as [resolvealiases] gave it (keys stored whole, at most
    [MAX_ALIAS_KEY_LENGTH] characters). *)
Theorem printaliases_after_realias_in_block
  (is_valid_cmd : list byte -> list byte -> Z -> bool)
  (ret_ok new_ok key_ok : bool) (fuel : nat) (st st' : state)
  (k v : list byte) (rc : Z) :
  forallb key_fits (head st) = true ->
  existsb is_nul k = false ->
  List.length k <= MAX_ALIAS_KEY_LENGTH ->
  existsb (has_key k) (head st) = true ->
  alias_in_block is_valid_cmd ret_ok new_ok key_ok fuel st k v
  = Done (st', rc) ->
  exists out1 old out2 val,
    printaliases st
    = Done (out1 ++ alias_line k old ++ out2, EXIT_SUCCESS)
    /\ resolvealiases_in_block is_valid_cmd ret_ok fuel st v = Done val
    /\ printaliases st'
       = Done (out1 ++ out2 ++ alias_line k val, EXIT_SUCCESS).
Proof.
  intros Hst Hnul Hk Hpresent H.
  destruct (alias_in_block_value _ _ _ _ _ _ _ _ H) as (val0 & Hval0 & _).
  pose proof (resolvealiases_in_block_text _ _ _ _ _ Hval0) as Htext.
  apply alias_in_block_text in H.
  apply alias_done in H
    as (val & found & Hval & Hfound & _ & _ & _ & _ & Hhead & _).
  rewrite Htext in Hval. injection Hval as <-.
  rewrite (@alias_exists_fits st k Hst Hnul), Hpresent in Hfound.
  injection Hfound as <-. cbv zeta in Hhead.
  pose proof (@existsb_has_key_unlink (head st) k Hst Hk) as Hu.
  rewrite Hpresent in Hu. unfold unalias in Hhead.
  destruct (unlink (head st) k) as [[f rest]|] eqn:E; [|discriminate].
  simpl in Hhead.
  destruct (unlink_split _ _ E) as (l1 & l2 & H1 & -> & Hm & _).
  pose proof (forallb_fits_terminated _ Hst) as Hterm.
  rewrite H1, forallb_app in Hterm, Hst. simpl in Hterm, Hst.
  apply andb_true_iff in Hterm as [Ht1 Hterm].
  apply andb_true_iff in Hterm as [Htf Ht2].
  apply andb_true_iff in Hst as [_ Hst].
  apply andb_true_iff in Hst as [Hff _].
  rewrite (matches_fits _ _ Hff Hk) in Hm.
  unfold has_key in Hm. apply bytes_eqb_true in Hm.
  destruct (print_from_terminated _ Ht1) as [out1 Hout1].
  destruct (print_from_terminated _ Ht2) as [out2 Hout2].
  exists out1, (value f), out2, val0. unfold printaliases.
  rewrite H1, Hhead, !print_from_app, Hout1, Hout2.
  rewrite print_new_entry by assumption. simpl.
  unfold c_str. unfold terminated_key in Htf. rewrite Htf, Hm, Hout2.
  simpl. rewrite <- !app_assoc. repeat split. exact Hval0.
Qed.

Lemma printaliases_after_realias_in_block_ls :
  alias_in_block never_valid true true true 2 st_ls_ll (cstr "ls")
    (cstr "ls -a")
  = Done (table [entry "ll" "ls -l"; entry "ls" "ls -a"] 10, EXIT_SUCCESS)
  /\ exists out1 old out2 val,
      printaliases st_ls_ll
      = Done (out1 ++ alias_line (cstr "ls") old ++ out2, EXIT_SUCCESS)
      /\ resolvealiases_in_block never_valid true 2 st_ls_ll (cstr "ls -a")
         = Done val
      /\ printaliases (table [entry "ll" "ls -l"; entry "ls" "ls -a"] 10)
         = Done (out1 ++ out2 ++ alias_line (cstr "ls") val, EXIT_SUCCESS).
Proof.
  split; [reflexivity|].
  apply (@printaliases_after_realias_in_block never_valid true true true 2
           st_ls_ll (table [entry "ll" "ls -l"; entry "ls" "ls -a"] 10)
           (cstr "ls") (cstr "ls -a") EXIT_SUCCESS);
    try reflexivity. vm_compute; lia.
Defined.

(** X20. [alias_key_changed] is set by every [alias] that returns and by
    every [unalias] that finds its key; a query with [only_on_change] leaves
    it clear, so that a second such query right after answers NULL; a query
    on a set flag never answers NULL when [malloc] gave it a block; and, the
    keys of the table being terminated strings, a query that follows an
    [alias] (of a key of at most 50 characters) or a successful [unalias]
    answers with the keys of the table. *)
Theorem alias_key_changed_protocol
  (is_valid_cmd : list byte -> list byte -> Z -> bool) (st : state) :
  (forall ret_ok new_ok key_ok fuel k v st' rc,
      alias is_valid_cmd ret_ok new_ok key_ok fuel st k v = Done (st', rc) ->
      alias_key_changed st' = true)
  /\ (forall k st',
         unalias st k = (st', EXIT_SUCCESS) -> alias_key_changed st' = true)
  /\ (forall ret_ok st1 r1,
         get_all_alias_keys ret_ok st true = Done (st1, r1) ->
         alias_key_changed st1 = false
         /\ forall ret_ok',
             get_all_alias_keys ret_ok' st1 true = Done (st1, None))
  /\ (alias_key_changed st = true ->
      forall st1 r1,
        get_all_alias_keys true st true = Done (st1, r1) -> r1 <> None)
  /\ (forallb terminated_key (head st) = true ->
      forall ret_ok st1 r1,
        get_all_alias_keys ret_ok st true = Done (st1, r1) ->
        (forall ret_ok' new_ok key_ok fuel k v st2 rc,
            List.length k <= MAX_ALIAS_KEY_LENGTH ->
            alias is_valid_cmd ret_ok' new_ok key_ok fuel st1 k v
            = Done (st2, rc) ->
            get_all_alias_keys true st2 true = keys_answer st2)
        /\ (forall k st2,
               unalias st1 k = (st2, EXIT_SUCCESS) ->
               get_all_alias_keys true st2 true = keys_answer st2)).
Proof.
  split; [|split; [|split; [|split]]].
  - intros ret_ok new_ok key_ok fuel k v st' rc H.
    apply alias_done in H as (_ & _ & _ & _ & _ & _ & _ & H & _). exact H.
  - intros k st'. apply unalias_success_changed.
  - intros ret_ok st1 r1 Hq. split.
    + eapply get_all_alias_keys_clears; exact Hq.
    + intros ret_ok'. apply get_all_alias_keys_unchanged.
      eapply get_all_alias_keys_clears; exact Hq.
  - intros Hset st1 r1. unfold get_all_alias_keys. rewrite Hset. simpl.
    intros Hq. bind_inv Hq. injection Hq as <- <-. discriminate.
  - intros Hkeys ret_ok st1 r1 Hq.
    apply get_all_alias_keys_head in Hq. split.
    + intros ret_ok' new_ok key_ok fuel k v st2 rc Hk Halias.
      apply get_all_alias_keys_changed.
      * apply alias_done in Halias as (_ & _ & _ & _ & _ & _ & _ & -> & _).
        reflexivity.
      * eapply alias_terminated; [|exact Hk|exact Halias]. now rewrite Hq.
    + intros k st2 Hun.
      apply get_all_alias_keys_changed.
      * now rewrite (unalias_success_changed _ _ Hun).
      * replace st2 with (fst (unalias st1 k)) by now rewrite Hun.
        apply unalias_forallb. now rewrite Hq.
Qed.

Lemma alias_key_changed_protocol_ls :
  get_all_alias_keys true st_ls true
  = Done (clear_changed st_ls, Some ([cstr "ls"], 1%Z))
  /\ get_all_alias_keys true (clear_changed st_ls) true
     = Done (clear_changed st_ls, None)
  /\ alias never_valid true true true 2 (clear_changed st_ls) (cstr "ll")
       (cstr "ls -l") = Done (st_ls_ll, EXIT_SUCCESS)
  /\ alias_key_changed st_ls_ll = true
  /\ get_all_alias_keys true st_ls_ll true
     = Done (clear_changed st_ls_ll, Some ([cstr "ls"; cstr "ll"], 2%Z))
  /\ unalias (clear_changed st_ls) (cstr "ls")
     = (fst (unalias (clear_changed st_ls) (cstr "ls")), EXIT_SUCCESS)
  /\ alias_key_changed (fst (unalias (clear_changed st_ls) (cstr "ls")))
     = true
  /\ get_all_alias_keys true (fst (unalias (clear_changed st_ls) (cstr "ls")))
       true
     = Done (clear_changed (fst (unalias (clear_changed st_ls) (cstr "ls"))),
             Some ([], 0%Z)).
Proof.
  pose proof (alias_key_changed_protocol never_valid st_ls)
    as (_ & _ & Hclear & _ & Hkeys).
  pose proof (alias_key_changed_protocol never_valid (clear_changed st_ls))
    as (Halias & Hunalias & _).
  pose proof (alias_key_changed_protocol never_valid st_ls_ll)
    as (_ & _ & _ & Hset & _).
  specialize (Hkeys eq_refl true (clear_changed st_ls)
                (Some ([cstr "ls"], 1%Z)) eq_refl) as [Hafter1 Hafter2].
  split; [reflexivity|]. split.
  { apply (Hclear true (clear_changed st_ls) (Some ([cstr "ls"], 1%Z))).
    reflexivity. }
  split; [reflexivity|]. split.
  { apply (Halias true true true 2 (cstr "ll") (cstr "ls -l") st_ls_ll
             EXIT_SUCCESS).
    reflexivity. }
  split.
  { apply (Hafter1 true true true 2 (cstr "ll") (cstr "ls -l") st_ls_ll
             EXIT_SUCCESS); [vm_compute; lia | reflexivity]. }
  split; [reflexivity|]. split.
  { apply (Hunalias (cstr "ls")). reflexivity. }
  apply (Hafter2 (cstr "ls")). reflexivity.
Defined.

(** ** Further properties: redefinition, key round trip, escapes *)

(** X17. [alias k v1] followed by [alias k v2], no write of either leaving
    the block of [resolvealiases], for a key of at most
    [MAX_ALIAS_KEY_LENGTH] characters on a table whose keys are stored whole
    and hold [k] at most once: the table then has exactly one entry under
    [k], its value is [v2] as [resolvealiases] resolved it against the table
    that still held the first definition, and the list and [nb_aliases] are
    as large as after the first call. *)
Theorem alias_in_block_redefines_fitting_key
  (is_valid_cmd : list byte -> list byte -> Z -> bool)
  (ret_ok1 new_ok1 key_ok1 ret_ok2 new_ok2 key_ok2 : bool)
  (fuel1 fuel2 : nat) (st st1 st2 : state) (k v1 v2 : list byte)
  (rc1 rc2 : Z) :
  forallb key_fits (head st) = true ->
  existsb is_nul k = false ->
  List.length k <= MAX_ALIAS_KEY_LENGTH ->
  List.length (filter (has_key k) (head st)) <= 1 ->
  alias_in_block is_valid_cmd ret_ok1 new_ok1 key_ok1 fuel1 st k v1
  = Done (st1, rc1) ->
  alias_in_block is_valid_cmd ret_ok2 new_ok2 key_ok2 fuel2 st1 k v2
  = Done (st2, rc2) ->
  exists val2,
    resolvealiases_in_block is_valid_cmd ret_ok2 fuel2 st1 v2 = Done val2
    /\ filter (has_key k) (head st2)
       = [{| key := k ++ [NUL]; value := val2 |}]
    /\ List.length (head st2) = List.length (head st1)
    /\ nb_aliases st2 = nb_aliases st1.
Proof.
  intros Hst Hnul Hk Hone H1 H2.
  destruct (alias_in_block_value _ _ _ _ _ _ _ _ H2) as (val0 & Hval0 & _).
  pose proof (resolvealiases_in_block_text _ _ _ _ _ Hval0) as Htext.
  apply alias_in_block_text in H1. apply alias_in_block_text in H2.
  destruct (alias_twice_fitting_key _ _ _ _ _ _ _ _ _ _ _ _ _ Hst Hnul Hk
              Hone H1 H2) as (val2 & Hval2 & Hrest).
  rewrite Htext in Hval2. injection Hval2 as <-.
  exists val0. split; [exact Hval0 | exact Hrest].
Qed.

Lemma alias_in_block_redefines_fitting_key_ll :
  alias_in_block always_valid true true true 2 st_ls (cstr "ll")
    (cstr "ls -l")
  = Done (table [entry "ls" "ls --color"; entry "ll" "ls --color -l"] 23,
          EXIT_SUCCESS)
  /\ alias_in_block always_valid true true true 2
       (table [entry "ls" "ls --color"; entry "ll" "ls --color -l"] 23)
       (cstr "ll") (cstr "ls -a")
     = Done (table [entry "ls" "ls --color"; entry "ll" "ls --color -a"] 23,
             EXIT_SUCCESS)
  /\ exists val2,
      resolvealiases_in_block always_valid true 2
        (table [entry "ls" "ls --color"; entry "ll" "ls --color -l"] 23)
        (cstr "ls -a") = Done val2
      /\ filter (has_key (cstr "ll"))
           (head (table [entry "ls" "ls --color";
                         entry "ll" "ls --color -a"] 23))
         = [{| key := cstr "ll" ++ [NUL]; value := val2 |}]
      /\ List.length
           (head (table [entry "ls" "ls --color";
                         entry "ll" "ls --color -a"] 23))
         = List.length
             (head (table [entry "ls" "ls --color";
                           entry "ll" "ls --color -l"] 23))
      /\ nb_aliases
           (table [entry "ls" "ls --color"; entry "ll" "ls --color -a"] 23)
         = nb_aliases
             (table [entry "ls" "ls --color"; entry "ll" "ls --color -l"] 23).
Proof.
  split; [reflexivity|]. split; [reflexivity|].
  apply (@alias_in_block_redefines_fitting_key always_valid true true true
           true true true 2 2 st_ls
           (table [entry "ls" "ls --color"; entry "ll" "ls --color -l"] 23)
           (table [entry "ls" "ls --color"; entry "ll" "ls --color -a"] 23)
           (cstr "ll") (cstr "ls -l") (cstr "ls -a")
           EXIT_SUCCESS EXIT_SUCCESS);
    try reflexivity; [vm_compute; lia | simpl; lia].
Defined.

Lemma keys_of_app (st : state) (l1 l2 : list struct_alias) :
  head st = l1 ++ l2 ->
  keys_of st
  = map (fun a => upto_nul (key a)) l1 ++ map (fun a => upto_nul (key a)) l2.
Proof. unfold keys_of. intros ->. apply map_app. Qed.

(** X18. A key given to [alias] comes back from [get_all_alias_keys] as it
    was given, and last: after [alias] of a key the table did not hold, the
    keys copied are the keys of before, in their order, followed by the new
    key (keys of at most [MAX_ALIAS_KEY_LENGTH] characters, stored
    whole). *)
Theorem alias_then_get_all_alias_keys
  (is_valid_cmd : list byte -> list byte -> Z -> bool)
  (ret_ok new_ok key_ok : bool) (fuel : nat) (st st' : state)
  (k v : list byte) (rc : Z) :
  forallb key_fits (head st) = true ->
  existsb is_nul k = false ->
  List.length k <= MAX_ALIAS_KEY_LENGTH ->
  existsb (has_key k) (head st) = false ->
  alias is_valid_cmd ret_ok new_ok key_ok fuel st k v = Done (st', rc) ->
  get_all_alias_keys true st' true
  = Done (clear_changed st',
          Some (keys_of st ++ [k], (nb_aliases st' mod 2 ^ 32)%Z)).
Proof.
  intros Hst Hnul Hk Habsent H.
  pose proof H as H0.
  apply alias_done in H
    as (val & found & _ & Hfound & _ & _ & _ & Hflag & Hhead & _).
  rewrite (@alias_exists_fits st k Hst Hnul), Habsent in Hfound.
  injection Hfound as <-. cbv zeta in Hhead.
  destruct (@new_entry_fits k val Hnul Hk) as (Hkey & _ & Hnew).
  rewrite get_all_alias_keys_changed.
  - rewrite (keys_of_app _ _ _ Hhead). simpl in *.
    rewrite Hkey, upto_nul_no_nul by assumption. reflexivity.
  - now rewrite Hflag.
  - apply forallb_fits_terminated.
    rewrite Hhead, forallb_app. simpl. now rewrite Hst, Hnew.
Qed.

Lemma alias_then_get_all_alias_keys_ll :
  alias never_valid true true true 2 (clear_changed st_ls) (cstr "ll")
    (cstr "ls -l") = Done (st_ls_ll, EXIT_SUCCESS)
  /\ get_all_alias_keys true st_ls_ll true
     = Done (clear_changed st_ls_ll, Some ([cstr "ls"; cstr "ll"], 2%Z)).
Proof.
  split; [reflexivity|].
  apply (@alias_then_get_all_alias_keys never_valid true true true 2
           (clear_changed st_ls) st_ls_ll (cstr "ll") (cstr "ls -l")
           EXIT_SUCCESS);
    try reflexivity. vm_compute; lia.
Defined.

Lemma strstr_behind_backslash (k : list byte) :
  is_prefix k (backslash :: k) = false ->
  strstr (backslash :: k) k = Some 1.
Proof.
  intros H.
  change (strstr (backslash :: k) k)
    with (if is_prefix k (backslash :: k) then Some 0
          else option_map S (strstr k k)).
  now rewrite H, strstr_self.
Qed.

(** X19. An escaped key resolves to the bare key: for every key that is
    not empty or made of backslashes only, every value and every validity
    predicate, the pass over a backslash followed by the key removes the
    backslash and substitutes nothing. *)
Theorem resolve_alias_escaped_key
  (is_valid_cmd : list byte -> list byte -> Z -> bool) (fuel : nat)
  (k v : list byte) :
  is_prefix k (backslash :: k) = false ->
  resolve_alias is_valid_cmd (2 + fuel) k v (backslash :: k) 0 = Done k.
Proof.
  intros Hk.
  assert (Hne : k <> []) by (intros ->; discriminate Hk).
  change (2 + fuel) with (S (S fuel)).
  rewrite (@resolve_alias_escaped is_valid_cmd (S fuel) k v
             (backslash :: k) 0 1).
  - change (remove_at (backslash :: k) (0 + 1 - 1)) with (skipn 0 k).
    rewrite resolve_alias_round.
    rewrite skipn_all2 by (simpl; lia).
    now rewrite strstr_nil.
  - now apply strstr_behind_backslash.
  - unfold INT_MAX. simpl. lia.
  - simpl. lia.
  - reflexivity.
Qed.

Lemma resolve_alias_escaped_key_ls :
  is_prefix (cstr "ls") (backslash :: cstr "ls") = false
  /\ resolve_alias always_valid 2 (cstr "ls") (cstr "ls --color")
       (backslash :: cstr "ls") 0 = Done (cstr "ls").
Proof.
  split; [reflexivity|].
  apply (@resolve_alias_escaped_key always_valid 0 (cstr "ls")
           (cstr "ls --color")).
  reflexivity.
Defined.
